(** * ha_strava: the Strava photo camera ([custom_components/ha_strava/camera.py])

    A shallow embedding of [UrlCam], the camera entity that rotates through
    image URLs delivered by the Strava update event, and the properties of its
    bounded, date-ordered URL store.

    How the code is read:
    - [self._urls] is a Python dict, kept as the list of its items in insertion
      order; the keys are the MD5 hex digests the code computes;
    - an element of [img_urls] is a dict with a ["url"] and a ["date"]; the
      date is an integer timestamp;
    - [requests.get] answers with a response that has a status code and a
      body; the answers may change from one request to the next, so they are
      given per request number.  The methods of section [Camera] are the code
      on the runs in which every request is answered; module [Raising] has
      the methods again with a [requests.get] that may raise, which no method
      catches;
    - the pickled dump, the state writes and the error log are the part of the
      host the methods touch, threaded through them;
    - [const.CONF_MAX_NB_IMAGES] is not part of this file and stays a
      parameter; the class docstring speaks of 100;
    - subscripts that Python would refuse give [Raise IndexError] or
      [Raise KeyError]. *)

From Stdlib Require Import ZArith List String Ascii Bool Lia.
From Stdlib Require Import Permutation Sorted.
Import ListNotations.
Open Scope Z_scope.

(** ** hashlib.md5

    [img_update_handler] keys every stored image by
    [md5(url.encode()).hexdigest()].  The digest is the one of RFC 1321, on
    32-bit words held in [Z] with the wrap-around written out. *)

Module MD5.

Definition mask32 : Z := 0xffffffff.
Definition add32 (x y : Z) : Z := Z.land (x + y) mask32.
Definition not32 (x : Z) : Z := Z.lxor x mask32.
Definition rotl32 (x : Z) (s : Z) : Z :=
  Z.land (Z.lor (Z.shiftl x s) (Z.shiftr x (32 - s))) mask32.

Definition shifts : list Z :=
  [7; 12; 17; 22; 7; 12; 17; 22; 7; 12; 17; 22; 7; 12; 17; 22;
   5;  9; 14; 20; 5;  9; 14; 20; 5;  9; 14; 20; 5;  9; 14; 20;
   4; 11; 16; 23; 4; 11; 16; 23; 4; 11; 16; 23; 4; 11; 16; 23;
   6; 10; 15; 21; 6; 10; 15; 21; 6; 10; 15; 21; 6; 10; 15; 21].

(** [floor (2^32 * abs (sin (i + 1)))] for [i] in [0 .. 63]. *)
Definition sines : list Z :=
  [0xd76aa478; 0xe8c7b756; 0x242070db; 0xc1bdceee;
   0xf57c0faf; 0x4787c62a; 0xa8304613; 0xfd469501;
   0x698098d8; 0x8b44f7af; 0xffff5bb1; 0x895cd7be;
   0x6b901122; 0xfd987193; 0xa679438e; 0x49b40821;
   0xf61e2562; 0xc040b340; 0x265e5a51; 0xe9b6c7aa;
   0xd62f105d; 0x02441453; 0xd8a1e681; 0xe7d3fbc8;
   0x21e1cde6; 0xc33707d6; 0xf4d50d87; 0x455a14ed;
   0xa9e3e905; 0xfcefa3f8; 0x676f02d9; 0x8d2a4c8a;
   0xfffa3942; 0x8771f681; 0x6d9d6122; 0xfde5380c;
   0xa4beea44; 0x4bdecfa9; 0xf6bb4b60; 0xbebfbc70;
   0x289b7ec6; 0xeaa127fa; 0xd4ef3085; 0x04881d05;
   0xd9d4d039; 0xe6db99e5; 0x1fa27cf8; 0xc4ac5665;
   0xf4292244; 0x432aff97; 0xab9423a7; 0xfc93a039;
   0x655b59c3; 0x8f0ccc92; 0xffeff47d; 0x85845dd1;
   0x6fa87e4f; 0xfe2ce6e0; 0xa3014314; 0x4e0811a1;
   0xf7537e82; 0xbd3af235; 0x2ad7d2bb; 0xeb86d391].

(** [str.encode()]: the string's bytes. *)
Definition encode (s : string) : list Z :=
  map (fun c => Z.of_N (N_of_ascii c)) (list_ascii_of_string s).

Definition le_bytes (n : nat) (x : Z) : list Z :=
  map (fun i => Z.land (Z.shiftr x (8 * Z.of_nat i)) 0xff) (seq 0 n).

(** The message, a 1 bit, zeros up to 56 modulo 64, then the bit length on
    eight little-endian bytes. *)
Definition pad (msg : list Z) : list Z :=
  let len := Z.of_nat (List.length msg) in
  let zeros := Z.to_nat ((55 - len) mod 64) in
  msg ++ 0x80 :: repeat 0 zeros ++ le_bytes 8 (8 * len).

Fixpoint word_of_le (bs : list Z) : Z :=
  match bs with
  | [] => 0
  | b :: bs' => Z.lor b (Z.shiftl (word_of_le bs') 8)
  end.

Fixpoint group (fuel size : nat) {A : Type} (l : list A) : list (list A) :=
  match fuel with
  | O => []
  | S fuel' =>
      match l with
      | [] => []
      | _ => firstn size l :: group fuel' size (skipn size l)
      end
  end.

Definition words (block : list Z) : list Z :=
  map word_of_le (group 16 4 block).

Definition state : Type := (Z * Z * Z * Z)%type.

Definition round (M : list Z) (st : state) (i : nat) : state :=
  let '(A, B, C, D) := st in
  let zi := Z.of_nat i in
  let '(F, g) :=
    if zi <? 16 then (Z.lor (Z.land B C) (Z.land (not32 B) D), zi)
    else if zi <? 32 then
      (Z.lor (Z.land D B) (Z.land (not32 D) C), (5 * zi + 1) mod 16)
    else if zi <? 48 then (Z.lxor (Z.lxor B C) D, (3 * zi + 5) mod 16)
    else (Z.lxor C (Z.lor B (not32 D)), (7 * zi) mod 16) in
  let F' := add32 (add32 (add32 F A) (nth i sines 0)) (nth (Z.to_nat g) M 0) in
  (D, add32 B (rotl32 F' (nth i shifts 0)), B, C).

Definition compress (st : state) (block : list Z) : state :=
  let '(a0, b0, c0, d0) := st in
  let '(A, B, C, D) := fold_left (round (words block)) (seq 0 64) st in
  (add32 a0 A, add32 b0 B, add32 c0 C, add32 d0 D).

Definition init : state := (0x67452301, 0xefcdab89, 0x98badcfe, 0x10325476).

Definition digest (msg : list Z) : list Z :=
  let padded := pad msg in
  let '(a, b, c, d) :=
    fold_left compress (group (List.length padded) 64 padded) init in
  le_bytes 4 a ++ le_bytes 4 b ++ le_bytes 4 c ++ le_bytes 4 d.

Definition hex_digit (n : Z) : ascii :=
  if n <? 10 then ascii_of_N (Z.to_N (48 + n))
  else ascii_of_N (Z.to_N (87 + n)).

Fixpoint hex (bs : list Z) : string :=
  match bs with
  | [] => EmptyString
  | b :: bs' =>
      String (hex_digit (Z.shiftr b 4)) (String (hex_digit (Z.land b 15)) (hex bs'))
  end.

(** [md5(s.encode()).hexdigest()] *)
Definition hexdigest (s : string) : string := hex (digest (encode s)).

End MD5.

Arguments MD5.hexdigest : simpl never.

(** ** Python values

    The built-in operations the camera uses: list subscripts and slices, the
    insertion-ordered [dict], and the stable [sorted]. *)

Module Py.

Inductive exn : Type := IndexError | KeyError.

Inductive result (A : Type) : Type :=
| Ok (a : A)
| Raise (e : exn).
Arguments Ok {A} a.
Arguments Raise {A} e.

Definition len {A : Type} (l : list A) : Z := Z.of_nat (List.length l).

(** [l[i]]: a negative subscript counts from the end, anything outside
    the list raises [IndexError]. *)
Definition index {A : Type} (l : list A) (i : Z) : result A :=
  let j := if i <? 0 then i + len l else i in
  if (j <? 0) || (len l <=? j) then Raise IndexError
  else match nth_error l (Z.to_nat j) with
       | Some x => Ok x
       | None => Raise IndexError
       end.

(** [l[start:]]: a negative start counts from the end, and both are clamped
    to the list. *)
Definition slice_from {A : Type} (start : Z) (l : list A) : list A :=
  let s := if start <? 0 then Z.max (start + len l) 0
           else Z.min start (len l) in
  skipn (Z.to_nat s) l.

(** [sorted(l, key=key)]: stable, an element goes before the ones of equal
    key that followed it in [l]. *)
Fixpoint insert {A : Type} (key : A -> Z) (x : A) (l : list A) : list A :=
  match l with
  | [] => [x]
  | y :: l' => if key x <=? key y then x :: l else y :: insert key x l'
  end.

Definition sorted {A : Type} (key : A -> Z) (l : list A) : list A :=
  fold_right (insert key) [] l.

(** A [dict] with string keys, as the list of its items in insertion
    order. *)
Definition dict (V : Type) : Type := list (string * V).

Definition keys {V : Type} (d : dict V) : list string := map fst d.
Definition values {V : Type} (d : dict V) : list V := map snd d.
Definition items {V : Type} (d : dict V) : list (string * V) := d.

(** [d[k] = v]: an existing key keeps its place and takes the new value, a
    new key goes last. *)
Fixpoint setitem {V : Type} (d : dict V) (k : string) (v : V) : dict V :=
  match d with
  | [] => [(k, v)]
  | (k', v') :: d' =>
      if String.eqb k' k then (k', v) :: d' else (k', v') :: setitem d' k v
  end.

(** [d[k]] *)
Fixpoint getitem {V : Type} (d : dict V) (k : string) : result V :=
  match d with
  | [] => Raise KeyError
  | (k', v') :: d' => if String.eqb k' k then Ok v' else getitem d' k
  end.

(** [dict(pairs)] *)
Definition of_items {V : Type} (pairs : list (string * V)) : dict V :=
  fold_left (fun d kv => setitem d (fst kv) (snd kv)) pairs [].

End Py.

Import Py.

(** ** The camera's data *)

(** One element of the event's [img_urls]: a dict with a ["url"], a ["date"]
    and whatever else the event carries. *)
Record ImgUrl : Type := {
  url : string;
  date : Z;
  extra : list (string * string)
}.

Record Response : Type := {
  status_code : Z;
  content : list Byte.byte
}.

(** What [requests.get] answers: the response to the [n]-th request the
    process sends, as a function of the URL asked for. *)
Definition Network : Type := nat -> string -> Response.

(** What the camera touches outside itself: the requests sent so far, the
    pickled URL dump on disk, the state writes pushed to Home Assistant, and
    the error log. *)
Record Host : Type := {
  requests_sent : nat;
  url_dump : option (dict ImgUrl);
  ha_state_writes : nat;
  errors_logged : list string
}.

Record UrlCam : Type := {
  _urls : dict ImgUrl;
  _url_index : Z;
  _max_images : Z;
  _default_enabled : bool
}.

Definition _default_url : string :=
  "https://upload.wikimedia.org/wikipedia/commons/thumb/1/15/No_image_available_600_x_450.svg/1280px-No_image_available_600_x_450.svg.png".

Definition fresh_host : Host :=
  {| requests_sent := 0%nat; url_dump := None;
     ha_state_writes := 0%nat; errors_logged := [] |}.

Definition write_dump (d : dict ImgUrl) (h : Host) : Host :=
  {| requests_sent := requests_sent h; url_dump := Some d;
     ha_state_writes := ha_state_writes h; errors_logged := errors_logged h |}.

Definition async_write_ha_state (h : Host) : Host :=
  {| requests_sent := requests_sent h; url_dump := url_dump h;
     ha_state_writes := S (ha_state_writes h);
     errors_logged := errors_logged h |}.

Definition log_error (u : string) (h : Host) : Host :=
  {| requests_sent := requests_sent h; url_dump := url_dump h;
     ha_state_writes := ha_state_writes h;
     errors_logged := u :: errors_logged h |}.

Definition set_urls (self : UrlCam) (d : dict ImgUrl) : UrlCam :=
  {| _urls := d; _url_index := _url_index self;
     _max_images := _max_images self;
     _default_enabled := _default_enabled self |}.

Definition set_url_index (self : UrlCam) (i : Z) : UrlCam :=
  {| _urls := _urls self; _url_index := i;
     _max_images := _max_images self;
     _default_enabled := _default_enabled self |}.

(** [lambda k_v: k_v[1]["date"]], the sort key of [img_update_handler]. *)
Definition date_of_item (k_v : string * ImgUrl) : Z := date (snd k_v).

(** ** The camera's methods *)

Section Camera.

Variable net : Network.

(** [const.CONF_MAX_NB_IMAGES] *)
Variable CONF_MAX_NB_IMAGES : Z.

Definition requests_get (u : string) (h : Host) : Response * Host :=
  (net (requests_sent h) u,
   {| requests_sent := S (requests_sent h); url_dump := url_dump h;
      ha_state_writes := ha_state_writes h;
      errors_logged := errors_logged h |}).

Definition _pickle_urls (self : UrlCam) (h : Host) : Host :=
  write_dump (_urls self) h.

(** [UrlCam.__init__] *)
Definition UrlCam_init (default_enabled : bool) (h : Host) : UrlCam * Host :=
  let make d :=
    {| _urls := d; _url_index := 0; _max_images := CONF_MAX_NB_IMAGES;
       _default_enabled := default_enabled |} in
  match url_dump h with
  | Some d => (make d, h)
  | None => (make [], _pickle_urls (make []) h)
  end.

Definition _return_default_img (self : UrlCam) (h : Host)
  : list Byte.byte * Host :=
  let (img_response, h1) := requests_get _default_url h in
  (content img_response, h1).

Definition is_url_valid (self : UrlCam) (u : string) (h : Host)
  : bool * Host :=
  let (img_response, h1) := requests_get u h in
  if status_code img_response =? 200 then (true, h1)
  else (false, log_error u h1).

(** [self._urls[list(self._urls.keys())[self._url_index]]["url"]] *)
Definition current_url (self : UrlCam) : result string :=
  match index (keys (_urls self)) (_url_index self) with
  | Raise e => Raise e
  | Ok k =>
      match getitem (_urls self) k with
      | Raise e => Raise e
      | Ok img => Ok (url img)
      end
  end.

Definition camera_image (self : UrlCam) (h : Host)
  : result (list Byte.byte) * Host :=
  if len (_urls self) =? _url_index self then
    let (img, h1) := _return_default_img self h in (Ok img, h1)
  else
    match current_url self with
    | Raise e => (Raise e, h)
    | Ok u =>
        let (img_response, h1) := requests_get u h in
        if status_code img_response =? 200 then (Ok (content img_response), h1)
        else
          let (img, h2) := _return_default_img self (log_error u h1) in
          (Ok img, h2)
    end.

Definition rotate_img (self : UrlCam) (h : Host) : UrlCam * Host :=
  if len (_urls self) =? 0 then (self, h)
  else
    (set_url_index self ((_url_index self + 1) mod len (_urls self)),
     async_write_ha_state h).

Definition state (self : UrlCam) : result string :=
  if len (_urls self) =? _url_index self then Ok _default_url
  else current_url self.

Definition extra_state_attributes (self : UrlCam)
  : result (dict string) :=
  if len (_urls self) =? _url_index self
  then Ok [("img_url"%string, _default_url)]
  else match current_url self with
       | Raise e => Raise e
       | Ok u => Ok [("img_url"%string, u)]
       end.

(** The [for] loop of [img_update_handler]: every URL that validates is
    stored under the digest of its URL. *)
Definition append_new_images (self : UrlCam) (img_urls : list ImgUrl)
  (d : dict ImgUrl) (h : Host) : dict ImgUrl * Host :=
  fold_left
    (fun (acc : dict ImgUrl * Host) (img_url : ImgUrl) =>
       let (valid, h1) := is_url_valid self (url img_url) (snd acc) in
       if valid
       then (setitem (fst acc) (MD5.hexdigest (url img_url)) img_url, h1)
       else (fst acc, h1))
    img_urls (d, h).

(** The re-assignment of [self._urls]: sorted by date, the last
    [_max_images] kept. *)
Definition sort_and_truncate (self : UrlCam) (d : dict ImgUrl) : dict ImgUrl :=
  of_items
    (slice_from (- _max_images self) (sorted date_of_item (items d))).

Definition img_update_handler (self : UrlCam) (img_urls : list ImgUrl)
  (h : Host) : UrlCam * Host :=
  let (d, h1) := append_new_images self img_urls (_urls self) h in
  let self' := set_urls self (sort_and_truncate self d) in
  (self', _pickle_urls self' h1).

(** [image_update_listener] of [async_setup_entry], the timer's callback. *)
Definition image_update_listener (config_entries : nat) (self : UrlCam)
  (h : Host) : UrlCam * Host :=
  if Nat.eqb config_entries 1 then rotate_img self h else (self, h).

(** What happens to a running camera: the host starts it again, the timer
    fires, the Strava update event arrives, a client asks for the image. *)
Inductive Action : Type :=
| Reload (default_enabled : bool)
| TimerTick (config_entries : nat)
| ImgUpdate (img_urls : list ImgUrl)
| ImageRequest.

Definition step (s : UrlCam * Host) (a : Action) : UrlCam * Host :=
  match a with
  | Reload default_enabled => UrlCam_init default_enabled (snd s)
  | TimerTick n => image_update_listener n (fst s) (snd s)
  | ImgUpdate img_urls => img_update_handler (fst s) img_urls (snd s)
  | ImageRequest => (fst s, snd (camera_image (fst s) (snd s)))
  end.

(** The camera after a history, from a first start with no dump on disk. *)
Definition run (default_enabled : bool) (history : list Action)
  : UrlCam * Host :=
  fold_left step history (UrlCam_init default_enabled fresh_host).

End Camera.

(** ** When a request is not answered

    [requests.get] raises (a [requests.exceptions.RequestException]: no
    connection, a timeout) instead of answering.  [camera.py] has no [try]:
    the exception leaves the method that made the request, and the caller of
    that method. *)

Module Raising.

Inductive raised : Type :=
| Lookup (e : exn)
| RequestException.

Inductive outcome (A : Type) : Type :=
| Returns (a : A)
| Raises (r : raised).
Arguments Returns {A} a.
Arguments Raises {A} r.

(** What the [n]-th request of the process gets for a URL: a response, or
    [None] when [requests.get] raises. *)
Definition Transport : Type := nat -> string -> option Response.

(** The request counts as sent whether it is answered or not. *)
Definition requests_get (transport : Transport) (u : string) (h : Host)
  : option Response * Host :=
  (transport (requests_sent h) u,
   {| requests_sent := S (requests_sent h); url_dump := url_dump h;
      ha_state_writes := ha_state_writes h;
      errors_logged := errors_logged h |}).

Definition _return_default_img (transport : Transport) (self : UrlCam)
  (h : Host) : outcome (list Byte.byte) * Host :=
  let (answer, h1) := requests_get transport _default_url h in
  match answer with
  | Some img_response => (Returns (content img_response), h1)
  | None => (Raises RequestException, h1)
  end.

Definition is_url_valid (transport : Transport) (self : UrlCam) (u : string)
  (h : Host) : outcome bool * Host :=
  let (answer, h1) := requests_get transport u h in
  match answer with
  | Some img_response =>
      if status_code img_response =? 200 then (Returns true, h1)
      else (Returns false, log_error u h1)
  | None => (Raises RequestException, h1)
  end.

Definition camera_image (transport : Transport) (self : UrlCam) (h : Host)
  : outcome (list Byte.byte) * Host :=
  if len (_urls self) =? _url_index self then
    _return_default_img transport self h
  else
    match current_url self with
    | Raise e => (Raises (Lookup e), h)
    | Ok u =>
        let (answer, h1) := requests_get transport u h in
        match answer with
        | Some img_response =>
            if status_code img_response =? 200
            then (Returns (content img_response), h1)
            else _return_default_img transport self (log_error u h1)
        | None => (Raises RequestException, h1)
        end
    end.

(** The [for] loop of [img_update_handler].  It assigns into [self._urls] as
    it goes, so when a validation raises, the dict is left with the images
    accepted so far. *)
Fixpoint append_new_images (transport : Transport) (self : UrlCam)
  (img_urls : list ImgUrl) (d : dict ImgUrl) (h : Host)
  : outcome unit * dict ImgUrl * Host :=
  match img_urls with
  | [] => (Returns tt, d, h)
  | img_url :: rest =>
      match is_url_valid transport self (url img_url) h with
      | (Returns true, h1) =>
          append_new_images transport self rest
            (setitem d (MD5.hexdigest (url img_url)) img_url) h1
      | (Returns false, h1) => append_new_images transport self rest d h1
      | (Raises r, h1) => (Raises r, d, h1)
      end
  end.

(** [img_update_handler]: the camera it leaves is returned beside the
    outcome, since it has changed even when the method raises. *)
Definition img_update_handler (transport : Transport) (self : UrlCam)
  (img_urls : list ImgUrl) (h : Host) : outcome unit * UrlCam * Host :=
  match append_new_images transport self img_urls (_urls self) h with
  | (Returns _, d, h1) =>
      let self' := set_urls self (sort_and_truncate self d) in
      (Returns tt, self', _pickle_urls self' h1)
  | (Raises r, d, h1) => (Raises r, set_urls self d, h1)
  end.

(** A network on which every request is answered. *)
Definition answering (net : Network) : Transport := fun n u => Some (net n u).

(** The outcome of a method that made no request. *)
Definition of_result {A : Type} (r : result A) : outcome A :=
  match r with
  | Ok a => Returns a
  | Raise e => Raises (Lookup e)
  end.

End Raising.

(** ** Notions the properties are stated with *)

(** [x] comes no later than [y] under the sort key. *)
Definition key_le {A : Type} (key : A -> Z) (x y : A) : Prop := key x <= key y.

(** The dates met when iterating over the stored images. *)
Definition dates (d : dict ImgUrl) : list Z := map date (values d).

(** The key an image is stored under. *)
Definition image_key (img : ImgUrl) : string := MD5.hexdigest (url img).

(** The images of a batch whose URL validates, the first validation being the
    [t]-th request sent. *)
Fixpoint accepted (net : Network) (t : nat) (img_urls : list ImgUrl)
  : list ImgUrl :=
  match img_urls with
  | [] => []
  | img :: rest =>
      if status_code (net t (url img)) =? 200
      then img :: accepted net (S t) rest
      else accepted net (S t) rest
  end.

(** The images of a batch whose URL does not validate. *)
Fixpoint rejected (net : Network) (t : nat) (img_urls : list ImgUrl)
  : list ImgUrl :=
  match img_urls with
  | [] => []
  | img :: rest =>
      if status_code (net t (url img)) =? 200
      then rejected net (S t) rest
      else img :: rejected net (S t) rest
  end.

(** Storing images one after the other, each under its key. *)
Definition store (d : dict ImgUrl) (imgs : list ImgUrl) : dict ImgUrl :=
  fold_left (fun d img => setitem d (image_key img) img) imgs d.

(** What every history keeps true of a camera started with
    [CONF_MAX_NB_IMAGES = N]. *)
Record invariant (N : Z) (s : UrlCam * Host) : Prop := {
  inv_keys : NoDup (keys (_urls (fst s)));
  inv_dates : StronglySorted (key_le date_of_item) (_urls (fst s));
  inv_max : _max_images (fst s) = N;
  inv_dump : url_dump (snd s) = Some (_urls (fst s));
  inv_index : 0 <= N -> 0 <= _url_index (fst s) <= len (_urls (fst s));
  inv_size : 0 < N -> len (_urls (fst s)) <= N
}.

(** The cameras met after each of several update events in a row. *)
Fixpoint img_update_trace (net : Network) (s : UrlCam * Host)
  (events : list (list ImgUrl)) : list (UrlCam * Host) :=
  match events with
  | [] => []
  | img_urls :: events' =>
      let s' := img_update_handler net (fst s) img_urls (snd s) in
      s' :: img_update_trace net s' events'
  end.

(** The same URL delivered by two events in a row. *)
Definition reingest (net : Network) (self : UrlCam) (img1 img2 : ImgUrl)
  (h : Host) : UrlCam * Host :=
  let s1 := img_update_handler net self [img1] h in
  img_update_handler net (fst s1) [img2] (snd s1).


(** The image is stored under its key at most once, and nothing else is
    stored under that key. *)
Definition stored_at_most_once (d : dict ImgUrl) (img : ImgUrl) : Prop :=
  (count_occ string_dec (keys d) (image_key img) <= 1)%nat /\
  forall v, getitem d (image_key img) = Ok v -> v = img.

(** The image is stored under its key, exactly once. *)
Definition stored_once (d : dict ImgUrl) (img : ImgUrl) : Prop :=
  count_occ string_dec (keys d) (image_key img) = 1%nat /\
  getitem d (image_key img) = Ok img.

(** An update that leaves out every image that failed validation and holds
    every image that passed. *)
Definition keeps_valid_drops_invalid (net : Network) (self : UrlCam)
  (img_urls : list ImgUrl) (h : Host) : Prop :=
  let d := _urls (fst (img_update_handler net self img_urls h)) in
  (forall img, In img (rejected net (requests_sent h) img_urls) ->
               ~ In (image_key img) (keys d)) /\
  (forall img, In img (accepted net (requests_sent h) img_urls) ->
               In (image_key img, img) d).


(** The camera after a history, from a start on whatever the host holds. *)
Definition started (net : Network) (N : Z) (enabled : bool) (h : Host)
  (history : list Action) : UrlCam * Host :=
  fold_left (step net N) history (UrlCam_init N enabled h).


(** The dict holds an image dated [t] or earlier. *)
Definition holds_as_old (d : dict ImgUrl) (t : Z) : Prop :=
  exists k_v, In k_v d /\ date (snd k_v) <= t.

(** The entries dated [t] or later, and those dated later than [t]. *)
Definition dated_from (d : dict ImgUrl) (t : Z) : dict ImgUrl :=
  filter (fun k_v => t <=? date (snd k_v)) d.

Definition dated_after (d : dict ImgUrl) (t : Z) : dict ImgUrl :=
  filter (fun k_v => t <? date (snd k_v)) d.

(** ** Sample data *)

Definition photo (u : string) (d : Z) : ImgUrl :=
  {| url := u; date := d; extra := [] |}.

Definition jpeg : list Byte.byte := [Byte.xff; Byte.xd8; Byte.xff].
Definition placeholder_png : list Byte.byte := [Byte.x89; Byte.x50].

(** Every URL answers 200. *)
Definition net_ok : Network :=
  fun _ u =>
    if String.eqb u _default_url
    then {| status_code := 200; content := placeholder_png |}
    else {| status_code := 200; content := jpeg |}.

(** Every URL answers 200 except [bad], which answers 404. *)
Definition net_except (bad : string) : Network :=
  fun t u =>
    if String.eqb u bad then {| status_code := 404; content := [] |}
    else net_ok t u.

Definition ride1 : ImgUrl := photo "https://photos.example/ride1.jpg" 1.
Definition ride2 : ImgUrl := photo "https://photos.example/ride2.jpg" 2.
Definition ride3 : ImgUrl := photo "https://photos.example/ride3.jpg" 3.

Definition sample_history : list Action :=
  [ImgUpdate [ride3; ride1; ride2]; TimerTick 1].

(** The first three requests are answered 200; from the fourth on the URL of
    [ride3] answers 404. *)
Definition net_gone : Network :=
  fun t u => if Nat.ltb t 3 then net_ok t u else net_except (url ride3) t u.

(** Three photos arrive and the timer fires once. *)
Definition gone_history : list Action :=
  [ImgUpdate [ride1; ride2; ride3]; TimerTick 1].

(** A camera holding [ride2] and [ride3], as many as it may hold. *)
Definition full_camera : UrlCam * Host :=
  run net_ok 2 true [ImgUpdate [ride2; ride3]].

(** A dump of four images found on disk by a camera that may hold two. *)
Definition oversized_host : Host :=
  {| requests_sent := 0%nat;
     url_dump :=
       Some [(image_key ride1, ride1); (image_key ride2, ride2);
             (image_key ride3, ride3);
             (image_key (photo "https://photos.example/ride4.jpg" 4),
              photo "https://photos.example/ride4.jpg" 4)];
     ha_state_writes := 0%nat; errors_logged := [] |}.

(** [k] firings of the timer while Home Assistant has exactly one entry of
    the integration. *)
Definition ticks (k : nat) : list Action := repeat (TimerTick 1) k.

(** Every stored image is under the digest of its own URL. *)
Definition keyed_by_url (d : dict ImgUrl) : Prop :=
  forall k img, In (k, img) d -> k = MD5.hexdigest (url img).

(** [x] comes strictly before [y] under the sort key. *)
Definition key_lt {A : Type} (key : A -> Z) (x y : A) : Prop := key x < key y.

(** Whether a key is one of the dict's. *)
Definition has_key {V : Type} (d : dict V) (k_v : string * V) : bool :=
  existsb (String.eqb (fst k_v)) (keys d).

(** Two photos taken at the same date. *)
Definition dawn : ImgUrl := photo "https://photos.example/dawn.jpg" 5.
Definition dusk : ImgUrl := photo "https://photos.example/dusk.jpg" 5.

(** No request is answered. *)
Definition offline : Raising.Transport := fun _ _ => None.

(** Requests are answered as by [net_ok], except the [n]-th, which raises. *)
Definition drops_request (n : nat) : Raising.Transport :=
  fun t u => if Nat.eqb t n then None else Some (net_ok t u).

(** * Properties *)

(** ** The digest against hashlib's *)

Example md5_empty :
  MD5.hexdigest "" = "d41d8cd98f00b204e9800998ecf8427e"%string.
Proof. vm_compute. reflexivity. Qed.

Example md5_abc :
  MD5.hexdigest "abc" = "900150983cd24fb0d6963f7d28e17f72"%string.
Proof. vm_compute. reflexivity. Qed.

Example md5_url :
  MD5.hexdigest "https://example.com/a.jpg" = "7cff6e664a8bf6783610a2814043d343"%string.
Proof. vm_compute. reflexivity. Qed.

Example md5_two_blocks :
  MD5.hexdigest "xxxxxxxxxxxxxxxxxxxxxxxxxxxxxxxxxxxxxxxxxxxxxxxxxxxxxxxx"
  = "668a72d5ba17f08e62dabcafad6db14b"%string.
Proof. vm_compute. reflexivity. Qed.

(** ** Python dicts, sorting and slices *)

Section PyFacts.

Context {V : Type}.
Implicit Types (d : dict V) (k : string) (v : V).

Lemma setitem_absent d k v :
  ~ In k (keys d) -> setitem d k v = d ++ [(k, v)].
Proof.
  induction d as [|[k' v'] d IH]; simpl; intros Hk; [reflexivity|].
  destruct (String.eqb_spec k' k) as [->|Hne].
  - exfalso. apply Hk. now left.
  - rewrite IH; [reflexivity|]. intros Hin. apply Hk. now right.
Qed.

Lemma keys_setitem_present d k v :
  In k (keys d) -> keys (setitem d k v) = keys d.
Proof.
  induction d as [|[k' v'] d IH]; simpl; intros Hk; [contradiction|].
  destruct (String.eqb_spec k' k) as [->|Hne]; simpl; [reflexivity|].
  f_equal. apply IH. destruct Hk as [Hk|Hk]; [congruence|exact Hk].
Qed.

Lemma In_keys_dec d k : {In k (keys d)} + {~ In k (keys d)}.
Proof. apply in_dec, string_dec. Qed.

Lemma NoDup_keys_setitem d k v :
  NoDup (keys d) -> NoDup (keys (setitem d k v)).
Proof.
  intros Hd. destruct (In_keys_dec d k) as [Hin|Hout].
  - now rewrite keys_setitem_present.
  - rewrite setitem_absent by exact Hout.
    unfold keys. rewrite map_app. simpl.
    apply NoDup_app; [exact Hd | repeat constructor; simpl; tauto |].
    intros x Hx [<-|[]]. exact (Hout Hx).
Qed.

Lemma length_setitem_ge d k v :
  (List.length d <= List.length (setitem d k v))%nat.
Proof.
  induction d as [|[k' v'] d IH]; simpl; [lia|].
  destruct (String.eqb k' k); simpl; lia.
Qed.

Lemma length_setitem_le d k v :
  (List.length (setitem d k v) <= S (List.length d))%nat.
Proof.
  induction d as [|[k' v'] d IH]; simpl; [lia|].
  destruct (String.eqb k' k); simpl; lia.
Qed.

Lemma length_setitem_present d k v :
  In k (keys d) -> List.length (setitem d k v) = List.length d.
Proof.
  intros Hin. rewrite <- (length_map fst (setitem d k v)), <- (length_map fst d).
  change (List.length (keys (setitem d k v)) = List.length (keys d)).
  now rewrite keys_setitem_present.
Qed.

Lemma In_keys_setitem d k v : In k (keys (setitem d k v)).
Proof.
  induction d as [|[k' v'] d IH]; simpl; [now left|].
  destruct (String.eqb_spec k' k) as [->|Hne]; simpl; [now left|now right].
Qed.

Lemma getitem_setitem_same d k v : getitem (setitem d k v) k = Ok v.
Proof.
  induction d as [|[k' v'] d IH]; simpl.
  - now rewrite String.eqb_refl.
  - destruct (String.eqb_spec k' k) as [->|Hne]; simpl.
    + now rewrite String.eqb_refl.
    + destruct (String.eqb_spec k' k); [contradiction|exact IH].
Qed.

Lemma getitem_setitem_other d k v k0 :
  k0 <> k -> getitem (setitem d k v) k0 = getitem d k0.
Proof.
  intros Hne. induction d as [|[k' v'] d IH]; simpl.
  - destruct (String.eqb_spec k k0); [congruence|reflexivity].
  - destruct (String.eqb_spec k' k) as [->|Hk]; simpl.
    + destruct (String.eqb_spec k k0); [congruence|reflexivity].
    + destruct (String.eqb_spec k' k0); [reflexivity|exact IH].
Qed.

Lemma In_setitem d k v k0 v0 :
  In (k0, v0) (setitem d k v) -> (k0 = k /\ v0 = v) \/ In (k0, v0) d.
Proof.
  induction d as [|[k' v'] d IH]; simpl.
  - intros [H|[]]. left. split; congruence.
  - destruct (String.eqb_spec k' k) as [->|Hk]; simpl.
    + intros [H|H]; [left; split; congruence | right; now right].
    + intros [H|H]; [right; now left|].
      destruct (IH H) as [?|?]; [now left | right; now right].
Qed.

Lemma getitem_In d k v : getitem d k = Ok v -> In (k, v) d.
Proof.
  induction d as [|[k' v'] d IH]; simpl; [discriminate|].
  destruct (String.eqb_spec k' k) as [->|Hk].
  - intros [= ->]. now left.
  - intros H. right. exact (IH H).
Qed.

Lemma In_getitem d k v : NoDup (keys d) -> In (k, v) d -> getitem d k = Ok v.
Proof.
  induction d as [|[k' v'] d IH]; simpl; [contradiction|].
  intros Hnd [H|H].
  - injection H as -> ->. now rewrite String.eqb_refl.
  - inversion Hnd as [|? ? Hout Hnd']; subst.
    destruct (String.eqb_spec k' k) as [->|Hk].
    + exfalso. apply Hout. change k with (fst (k, v)). now apply in_map.
    + exact (IH Hnd' H).
Qed.

Lemma getitem_absent d k : ~ In k (keys d) <-> getitem d k = Raise KeyError.
Proof.
  induction d as [|[k' v'] d IH]; simpl; [tauto|].
  destruct (String.eqb_spec k' k) as [->|Hk].
  - split; [tauto|discriminate].
  - rewrite <- IH. tauto.
Qed.

Lemma getitem_cases d k :
  getitem d k = Raise KeyError \/ exists v, getitem d k = Ok v.
Proof.
  induction d as [|[k' v'] d IH]; simpl; [now left|].
  destruct (String.eqb k' k); [right; eauto | exact IH].
Qed.

(** Building a dict from pairs with distinct keys keeps the pairs as they
    are. *)
Lemma fold_setitem_distinct (pairs : list (string * V)) d :
  NoDup (keys (d ++ pairs)) ->
  fold_left (fun d kv => setitem d (fst kv) (snd kv)) pairs d = d ++ pairs.
Proof.
  revert d. induction pairs as [|[k v] pairs IH]; intros d Hnd; simpl.
  - now rewrite app_nil_r.
  - assert (Hout : ~ In k (keys d)).
    { unfold keys in *. rewrite map_app in Hnd. simpl in Hnd.
      apply NoDup_remove_2 in Hnd. intros Hin. apply Hnd.
      apply in_or_app. now left. }
    rewrite setitem_absent by exact Hout.
    rewrite IH; rewrite <- app_assoc; simpl; [reflexivity|exact Hnd].
Qed.

Lemma of_items_distinct (pairs : list (string * V)) :
  NoDup (keys pairs) -> of_items pairs = pairs.
Proof. intros Hnd. unfold of_items. now rewrite fold_setitem_distinct. Qed.

Lemma length_fold_setitem (pairs : list (string * V)) d :
  (List.length (fold_left (fun d kv => setitem d (fst kv) (snd kv)) pairs d)
   <= List.length d + List.length pairs)%nat.
Proof.
  revert d. induction pairs as [|[k v] pairs IH]; intros d; simpl; [lia|].
  specialize (IH (setitem d k v)). pose proof (length_setitem_le d k v). lia.
Qed.

Lemma length_of_items (pairs : list (string * V)) :
  (List.length (of_items pairs) <= List.length pairs)%nat.
Proof. unfold of_items. apply (length_fold_setitem pairs []). Qed.

End PyFacts.

Section SortFacts.

Context {A : Type} (key : A -> Z).

Lemma insert_perm x l : Permutation (insert key x l) (x :: l).
Proof.
  induction l as [|y l IH]; simpl; [reflexivity|].
  destruct (key x <=? key y); [reflexivity|].
  rewrite IH. apply perm_swap.
Qed.

Lemma sorted_perm l : Permutation (sorted key l) l.
Proof.
  induction l as [|x l IH]; simpl; [reflexivity|].
  rewrite insert_perm. now constructor.
Qed.

Lemma length_sorted l : List.length (sorted key l) = List.length l.
Proof. apply Permutation_length, sorted_perm. Qed.

Lemma insert_sorted x l :
  StronglySorted (key_le key) l -> StronglySorted (key_le key) (insert key x l).
Proof.
  induction 1 as [|y l Hl IH Hy]; simpl.
  - repeat constructor.
  - destruct (Z.leb_spec (key x) (key y)) as [Hxy|Hxy].
    + constructor; [now constructor|].
      constructor; [exact Hxy|].
      eapply Forall_impl; [|exact Hy]. unfold key_le. intros; lia.
    + constructor; [exact IH|].
      eapply Permutation_Forall; [symmetry; apply insert_perm|].
      constructor; [unfold key_le; lia | exact Hy].
Qed.

Lemma sorted_sorted l : StronglySorted (key_le key) (sorted key l).
Proof.
  induction l as [|x l IH]; simpl; [constructor | now apply insert_sorted].
Qed.

(** Sorting what is in order already changes nothing. *)
Lemma sorted_id l : StronglySorted (key_le key) l -> sorted key l = l.
Proof.
  induction 1 as [|x l Hl IH Hx]; simpl; [reflexivity|].
  rewrite IH. destruct l as [|y l]; simpl; [reflexivity|].
  inversion Hx as [|? ? Hxy _]; subst. unfold key_le in Hxy.
  destruct (Z.leb_spec (key x) (key y)); [reflexivity|lia].
Qed.

Lemma StronglySorted_skipn n l :
  StronglySorted (key_le key) l -> StronglySorted (key_le key) (skipn n l).
Proof.
  revert l. induction n as [|n IH]; intros l Hl; simpl; [exact Hl|].
  destruct l; [constructor|]. apply IH. now inversion Hl.
Qed.

Lemma StronglySorted_app_le l1 l2 x y :
  StronglySorted (key_le key) (l1 ++ l2) -> In x l1 -> In y l2 -> key x <= key y.
Proof.
  induction l1 as [|a l1 IH]; simpl; [contradiction|].
  intros Hs [->|Hx] Hy; inversion Hs as [|? ? Hs' Hall]; subst.
  - rewrite Forall_forall in Hall. apply Hall, in_or_app. now right.
  - now apply IH.
Qed.

Lemma StronglySorted_map_key l :
  StronglySorted (key_le key) l -> StronglySorted Z.le (map key l).
Proof.
  induction 1 as [|x l Hl IH Hx]; simpl; constructor; [exact IH|].
  rewrite Forall_map. exact Hx.
Qed.

Lemma slice_from_skipn (start : Z) (l : list A) :
  exists n, slice_from start l = skipn n l.
Proof. unfold slice_from. eauto. Qed.

Lemma slice_from_split (start : Z) (l : list A) :
  exists dropped, l = dropped ++ slice_from start l.
Proof.
  destruct (slice_from_skipn start l) as [n ->].
  exists (firstn n l). now rewrite firstn_skipn.
Qed.

(** [l[-n:]] with a positive [n]: the last [n] elements, or all of them. *)
Lemma len_slice_last (n : Z) (l : list A) :
  0 < n -> len (slice_from (- n) l) = Z.min n (len l).
Proof.
  intros Hn. unfold slice_from, len.
  destruct (Z.ltb_spec (- n) 0); [|lia].
  rewrite length_skipn. unfold len. lia.
Qed.

(** [l[-0:]] is [l[0:]]: the whole list. *)
Lemma slice_from_zero (l : list A) : slice_from (- 0) l = l.
Proof.
  unfold slice_from. simpl. unfold len.
  replace (Z.to_nat (Z.min 0 (Z.of_nat (List.length l)))) with 0%nat by lia.
  reflexivity.
Qed.

Lemma slice_from_all (n : Z) (l : list A) :
  len l <= n -> slice_from (- n) l = l.
Proof.
  intros Hn. unfold slice_from, len in *.
  destruct (Z.ltb_spec (- n) 0).
  - replace (Z.to_nat _) with 0%nat by lia. reflexivity.
  - replace (Z.to_nat _) with 0%nat by lia. reflexivity.
Qed.

End SortFacts.

Lemma NoDup_keys_skipn {V : Type} (n : nat) (d : dict V) :
  NoDup (keys d) -> NoDup (keys (skipn n d)).
Proof.
  revert d. induction n as [|n IH]; intros d Hd; simpl; [exact Hd|].
  destruct d; [constructor|]. apply IH. now inversion Hd.
Qed.

Lemma NoDup_keys_perm {V : Type} (d d' : dict V) :
  Permutation d d' -> NoDup (keys d) -> NoDup (keys d').
Proof.
  intros Hp. apply Permutation_NoDup. unfold keys. now apply Permutation_map.
Qed.

(** ** The two halves of [img_update_handler] *)

Section StoreFacts.

Implicit Types (d : dict ImgUrl) (img : ImgUrl) (imgs : list ImgUrl).

Lemma store_app d imgs imgs' :
  store d (imgs ++ imgs') = store (store d imgs) imgs'.
Proof. apply fold_left_app. Qed.

Lemma store_cons d img imgs :
  store d (img :: imgs) = store (setitem d (image_key img) img) imgs.
Proof. reflexivity. Qed.

Lemma NoDup_keys_store imgs d : NoDup (keys d) -> NoDup (keys (store d imgs)).
Proof.
  revert d. induction imgs as [|img imgs IH]; intros d Hd; [exact Hd|].
  rewrite store_cons. apply IH. now apply NoDup_keys_setitem.
Qed.

Lemma length_store_ge imgs d :
  (List.length d <= List.length (store d imgs))%nat.
Proof.
  revert d. induction imgs as [|img imgs IH]; intros d; [apply le_n|].
  rewrite store_cons. specialize (IH (setitem d (image_key img) img)).
  pose proof (length_setitem_ge d (image_key img) img). lia.
Qed.

Lemma length_store_le imgs d :
  (List.length (store d imgs) <= List.length d + List.length imgs)%nat.
Proof.
  revert d. induction imgs as [|img imgs IH]; intros d; [simpl; lia|].
  rewrite store_cons. specialize (IH (setitem d (image_key img) img)).
  pose proof (length_setitem_le d (image_key img) img). simpl. lia.
Qed.

(** Whatever is stored afterwards was there before or is an image of the
    batch under its own key. *)
Lemma In_store imgs d k v :
  In (k, v) (store d imgs) ->
  In (k, v) d \/ (In v imgs /\ k = image_key v).
Proof.
  revert d. induction imgs as [|img imgs IH]; intros d H; [now left|].
  rewrite store_cons in H. destruct (IH _ H) as [Hin|[Hin Hk]].
  - destruct (In_setitem _ _ _ _ _ Hin) as [[-> ->]|Hd].
    + right. split; [now left|reflexivity].
    + now left.
  - right. split; [now right|exact Hk].
Qed.

Lemma In_keys_store imgs d k :
  In k (keys d) -> In k (keys (store d imgs)).
Proof.
  revert d. induction imgs as [|img imgs IH]; intros d H; [exact H|].
  rewrite store_cons. apply IH.
  destruct (In_keys_dec d (image_key img)) as [Hin|Hout].
  - now rewrite keys_setitem_present.
  - rewrite setitem_absent by exact Hout. unfold keys. rewrite map_app.
    apply in_or_app. now left.
Qed.

(** An image stored is the one read back, as long as no later image of the
    batch has the same key. *)
Lemma getitem_store_skip imgs d k :
  (forall img, In img imgs -> image_key img <> k) ->
  getitem (store d imgs) k = getitem d k.
Proof.
  revert d. induction imgs as [|img imgs IH]; intros d H; [reflexivity|].
  rewrite store_cons, IH by (intros; apply H; now right).
  apply getitem_setitem_other. intros ->. now apply (H img); [left|].
Qed.

Lemma getitem_store_last d pre img post :
  (forall img', In img' post -> image_key img' <> image_key img) ->
  getitem (store d (pre ++ img :: post)) (image_key img) = Ok img.
Proof.
  intros H. rewrite store_app, store_cons, getitem_store_skip by exact H.
  apply getitem_setitem_same.
Qed.

End StoreFacts.

Section HandlerFacts.

Variable net : Network.

Implicit Types (self : UrlCam) (h : Host) (d : dict ImgUrl).

Lemma append_new_images_cons self img imgs d h :
  append_new_images net self (img :: imgs) d h =
  append_new_images net self imgs
    (if fst (is_url_valid net self (url img) h)
     then setitem d (image_key img) img else d)
    (snd (is_url_valid net self (url img) h)).
Proof.
  unfold append_new_images. cbn [fold_left fst snd].
  destruct (is_url_valid net self (url img) h) as [[] h1]; reflexivity.
Qed.

(** The loop stores exactly the images that validate, sends one request per
    image and logs each URL that fails. *)
Lemma append_new_images_spec self imgs : forall d h,
  append_new_images net self imgs d h =
  (store d (accepted net (requests_sent h) imgs),
   {| requests_sent := requests_sent h + List.length imgs;
      url_dump := url_dump h;
      ha_state_writes := ha_state_writes h;
      errors_logged :=
        rev (map url (rejected net (requests_sent h) imgs)) ++ errors_logged h |}).
Proof.
  induction imgs as [|img imgs IH]; intros d h.
  - destruct h. unfold append_new_images. simpl. now rewrite Nat.add_0_r.
  - rewrite append_new_images_cons, IH. unfold is_url_valid, requests_get.
    cbn [accepted rejected].
    destruct (status_code (net (requests_sent h) (url img)) =? 200);
      cbn [fst snd log_error requests_sent url_dump ha_state_writes
           errors_logged List.length map rev].
    + rewrite store_cons. do 2 f_equal. lia.
    + rewrite <- app_assoc. cbn [app]. do 2 f_equal. lia.
Qed.

Lemma sort_and_truncate_distinct self d :
  NoDup (keys d) ->
  sort_and_truncate self d
  = slice_from (- _max_images self) (sorted date_of_item d).
Proof.
  intros Hd. unfold sort_and_truncate, items. apply of_items_distinct.
  destruct (slice_from_skipn (- _max_images self) (sorted date_of_item d))
    as [n ->].
  apply NoDup_keys_skipn.
  apply (NoDup_keys_perm d); [symmetry; apply sorted_perm | exact Hd].
Qed.

Lemma NoDup_keys_sort_and_truncate self d :
  NoDup (keys d) -> NoDup (keys (sort_and_truncate self d)).
Proof.
  intros Hd. rewrite sort_and_truncate_distinct by exact Hd.
  destruct (slice_from_skipn (- _max_images self) (sorted date_of_item d))
    as [n ->].
  apply NoDup_keys_skipn.
  apply (NoDup_keys_perm d); [symmetry; apply sorted_perm | exact Hd].
Qed.

Lemma sort_and_truncate_sorted self d :
  NoDup (keys d) ->
  StronglySorted (key_le date_of_item) (sort_and_truncate self d).
Proof.
  intros Hd. rewrite sort_and_truncate_distinct by exact Hd.
  destruct (slice_from_skipn (- _max_images self) (sorted date_of_item d))
    as [n ->].
  apply StronglySorted_skipn, sorted_sorted.
Qed.

(** Truncation only drops: what is left was there. *)
Lemma In_sort_and_truncate self d kv :
  NoDup (keys d) -> In kv (sort_and_truncate self d) -> In kv d.
Proof.
  intros Hd. rewrite sort_and_truncate_distinct by exact Hd.
  destruct (slice_from_split (- _max_images self) (sorted date_of_item d))
    as [dropped Hsplit].
  intros Hin. apply (Permutation_in kv (sorted_perm date_of_item d)).
  rewrite Hsplit. apply in_or_app. now right.
Qed.

(** Whatever the dict held, no more than [_max_images] entries are left
    when that bound is positive. *)
Lemma len_sort_and_truncate_le self d :
  0 < _max_images self -> len (sort_and_truncate self d) <= _max_images self.
Proof.
  intros HN. unfold sort_and_truncate.
  pose proof (length_of_items
                (slice_from (- _max_images self) (sorted date_of_item (items d)))).
  pose proof (len_slice_last (_max_images self)
                (sorted date_of_item (items d)) HN).
  unfold len in *. lia.
Qed.

Lemma len_sort_and_truncate self d :
  NoDup (keys d) -> 0 < _max_images self ->
  len (sort_and_truncate self d) = Z.min (_max_images self) (len d).
Proof.
  intros Hd HN. rewrite sort_and_truncate_distinct by exact Hd.
  rewrite len_slice_last by exact HN. unfold len.
  now rewrite length_sorted.
Qed.

Lemma sort_and_truncate_room self d :
  NoDup (keys d) -> len d <= _max_images self ->
  sort_and_truncate self d = sorted date_of_item d.
Proof.
  intros Hd HN. rewrite sort_and_truncate_distinct by exact Hd.
  apply slice_from_all. unfold len in *. now rewrite length_sorted.
Qed.

Lemma sort_and_truncate_unbounded self d :
  NoDup (keys d) -> _max_images self = 0 ->
  sort_and_truncate self d = sorted date_of_item d.
Proof.
  intros Hd HN. rewrite sort_and_truncate_distinct by exact Hd.
  rewrite HN. apply slice_from_zero.
Qed.

Lemma img_update_handler_spec self imgs h :
  img_update_handler net self imgs h =
  let d := sort_and_truncate self
             (store (_urls self) (accepted net (requests_sent h) imgs)) in
  (set_urls self d,
   {| requests_sent := requests_sent h + List.length imgs;
      url_dump := Some d;
      ha_state_writes := ha_state_writes h;
      errors_logged :=
        rev (map url (rejected net (requests_sent h) imgs)) ++ errors_logged h |}).
Proof.
  unfold img_update_handler. rewrite append_new_images_spec. reflexivity.
Qed.

End HandlerFacts.

(** ** What every history preserves *)

Section Invariant.

Variable net : Network.
Variable N : Z.

Implicit Types (s : UrlCam * Host) (self : UrlCam) (h : Host).

Lemma camera_image_dump self h :
  url_dump (snd (camera_image net self h)) = url_dump h.
Proof.
  unfold camera_image, _return_default_img, requests_get.
  destruct (len (_urls self) =? _url_index self); [reflexivity|].
  destruct (current_url self) as [u|e]; [|reflexivity].
  destruct (status_code (net (requests_sent h) u) =? 200); reflexivity.
Qed.

(** With room for what it holds, an update never leaves the store smaller. *)
Lemma len_update_ge self imgs :
  NoDup (keys (_urls self)) ->
  0 <= _max_images self ->
  (0 < _max_images self -> len (_urls self) <= _max_images self) ->
  len (_urls self) <= len (sort_and_truncate self (store (_urls self) imgs)).
Proof.
  intros Hd HN Hroom.
  pose proof (NoDup_keys_store imgs _ Hd) as Hd'.
  pose proof (length_store_ge imgs (_urls self)) as Hge.
  destruct (Z.eq_dec (_max_images self) 0) as [H0|H0].
  - rewrite sort_and_truncate_unbounded by assumption.
    unfold len. rewrite length_sorted. lia.
  - rewrite len_sort_and_truncate by (assumption || lia).
    unfold len in *. lia.
Qed.

Lemma invariant_first_start enabled :
  invariant N (UrlCam_init N enabled fresh_host).
Proof.
  split; simpl; try reflexivity; try constructor; unfold len; simpl; lia.
Qed.

Lemma invariant_reload enabled s :
  invariant N s -> invariant N (UrlCam_init N enabled (snd s)).
Proof.
  intros [Hk Hs Hm Hd Hi Hz]. unfold UrlCam_init. rewrite Hd.
  split; simpl; try assumption; try reflexivity.
  intros _. unfold len. lia.
Qed.

Lemma invariant_rotate s :
  invariant N s -> invariant N (rotate_img (fst s) (snd s)).
Proof.
  intros [Hk Hs Hm Hd Hi Hz]. unfold rotate_img.
  destruct (Z.eqb_spec (len (_urls (fst s))) 0) as [H0|H0].
  - destruct s. split; assumption.
  - split; simpl; try assumption.
    intros _. assert (0 < len (_urls (fst s))) by (unfold len in *; lia).
    pose proof (Z.mod_pos_bound (_url_index (fst s) + 1) (len (_urls (fst s)))).
    lia.
Qed.

Lemma invariant_listener n s :
  invariant N s -> invariant N (image_update_listener n (fst s) (snd s)).
Proof.
  intros Hs. unfold image_update_listener.
  destruct (Nat.eqb n 1); [now apply invariant_rotate | now destruct s].
Qed.

Lemma invariant_update imgs s :
  invariant N s -> invariant N (img_update_handler net (fst s) imgs (snd s)).
Proof.
  intros [Hk Hs Hm Hd Hi Hz]. rewrite img_update_handler_spec.
  pose proof (NoDup_keys_store (accepted net (requests_sent (snd s)) imgs)
                _ Hk) as Hk'.
  split; cbn [fst snd set_urls _urls _url_index _max_images url_dump].
  - now apply NoDup_keys_sort_and_truncate.
  - now apply sort_and_truncate_sorted.
  - exact Hm.
  - reflexivity.
  - intros HN.
    pose proof (len_update_ge (fst s)
                  (accepted net (requests_sent (snd s)) imgs) Hk) as Hge.
    rewrite Hm in Hge. specialize (Hge HN Hz). specialize (Hi HN). lia.
  - intros HN. rewrite <- Hm. apply len_sort_and_truncate_le. now rewrite Hm.
Qed.

Lemma invariant_image s :
  invariant N s ->
  invariant N (fst s, snd (camera_image net (fst s) (snd s))).
Proof.
  intros [Hk Hs Hm Hd Hi Hz].
  split; cbn [fst snd]; try assumption.
  now rewrite camera_image_dump.
Qed.

Lemma invariant_step a s : invariant N s -> invariant N (step net N s a).
Proof.
  intros Hs. destruct a; cbn [step].
  - now apply invariant_reload.
  - now apply invariant_listener.
  - now apply invariant_update.
  - now apply invariant_image.
Qed.

Lemma invariant_history history s :
  invariant N s -> invariant N (fold_left (step net N) history s).
Proof.
  revert s. induction history as [|a history IH]; intros s Hs; [exact Hs|].
  cbn [fold_left]. apply IH. now apply invariant_step.
Qed.

Lemma invariant_run enabled history :
  invariant N (run net N enabled history).
Proof. apply invariant_history, invariant_first_start. Qed.

End Invariant.

(** ** The rotation index *)

Section Range.

Variable net : Network.
Variable N : Z.

Implicit Types (s : UrlCam * Host).




End Range.




(** ** Capacity *)

Lemma max_images_update (net : Network) (self : UrlCam) (img_urls : list ImgUrl)
  (h : Host) :
  _max_images (fst (img_update_handler net self img_urls h)) = _max_images self.
Proof. now rewrite img_update_handler_spec. Qed.

(** C2. Whatever the camera held before, after each update event of any
    sequence the store holds at most [_max_images] images, for a positive
    [_max_images]. *)
Theorem size_at_most_max_images (net : Network) (s : UrlCam * Host)
  (events : list (list ImgUrl)) :
  0 < _max_images (fst s) ->
  Forall (fun s' => len (_urls (fst s')) <= _max_images (fst s))
         (img_update_trace net s events).
Proof.
  revert s. induction events as [|img_urls events IH]; intros s HN; simpl.
  - constructor.
  - constructor.
    + rewrite img_update_handler_spec. cbn [fst set_urls _urls].
      now apply len_sort_and_truncate_le.
    + rewrite <- (max_images_update net (fst s) img_urls (snd s)).
      apply IH. now rewrite max_images_update.
Qed.

Lemma size_at_most_max_images_witness :
  0 < 2 /\
  Forall (fun s' => len (_urls (fst s')) <= 2)
         (img_update_trace net_ok (UrlCam_init 2 true fresh_host)
            [[ride1; ride2]; [ride3]; []]).
Proof.
  split; [lia|].
  apply (size_at_most_max_images net_ok (UrlCam_init 2 true fresh_host)
           [[ride1; ride2]; [ride3]; []]).
  simpl. lia.
Defined.

(** ** Order *)

Lemma dates_sorted (d : dict ImgUrl) :
  StronglySorted (key_le date_of_item) d -> StronglySorted Z.le (dates d).
Proof.
  intros Hd. unfold dates, values. rewrite map_map.
  now apply (StronglySorted_map_key date_of_item).
Qed.

(** C3. In every state a history reaches, iterating over the stored images
    meets their dates in non-decreasing order. *)
Theorem dates_ascending (net : Network) (N : Z) (enabled : bool)
  (history : list Action) :
  StronglySorted Z.le (dates (_urls (fst (run net N enabled history)))).
Proof.
  apply dates_sorted. exact (inv_dates _ _ (invariant_run net N enabled history)).
Qed.

(** ** Rotation *)

(** C4. [rotate_img] on an empty store changes nothing, neither the index nor
    the count of state writes; on a store of [n > 0] images it moves the index
    to [(index + 1) mod n], leaves the images alone and writes the state once.
    With three images and the index at 2 the index becomes 0. *)
Theorem rotate_img_spec (self : UrlCam) (h : Host) :
  (len (_urls self) = 0 -> rotate_img self h = (self, h)) /\
  (len (_urls self) <> 0 ->
   _url_index (fst (rotate_img self h))
   = (_url_index self + 1) mod len (_urls self) /\
   _urls (fst (rotate_img self h)) = _urls self /\
   ha_state_writes (snd (rotate_img self h)) = S (ha_state_writes h)) /\
  (len (_urls self) = 3 -> _url_index self = 2 ->
   _url_index (fst (rotate_img self h)) = 0).
Proof.
  unfold rotate_img. repeat split.
  - intros ->. reflexivity.
  - destruct (Z.eqb_spec (len (_urls self)) 0); [contradiction|reflexivity].
  - destruct (Z.eqb_spec (len (_urls self)) 0); [contradiction|reflexivity].
  - destruct (Z.eqb_spec (len (_urls self)) 0); [contradiction|reflexivity].
  - intros -> ->. reflexivity.
Qed.

Lemma rotate_img_spec_witness :
  let self := set_url_index
                (fst (run net_ok 5 true [ImgUpdate [ride1; ride2; ride3]])) 2 in
  len (_urls self) = 3 /\ _url_index self = 2 /\
  _url_index (fst (rotate_img self fresh_host)) = 0 /\
  ha_state_writes (snd (rotate_img self fresh_host)) = 1%nat.
Proof.
  intros self.
  assert (H3 : len (_urls self) = 3) by (vm_compute; reflexivity).
  assert (H2 : _url_index self = 2) by reflexivity.
  destruct (rotate_img_spec self fresh_host) as (_ & Hmove & Hwrap).
  assert (Hne : len (_urls self) <> 0) by (rewrite H3; discriminate).
  destruct (Hmove Hne) as (_ & _ & Hwrite).
  exact (conj H3 (conj H2 (conj (Hwrap H3 H2) Hwrite))).
Defined.

(** ** Ingestion leaves the index alone *)

(** C10. [img_update_handler] returns with [_url_index] as it found it,
    whatever the batch does to the stored images. *)
Theorem img_update_handler_keeps_index (net : Network) (self : UrlCam)
  (img_urls : list ImgUrl) (h : Host) :
  _url_index (fst (img_update_handler net self img_urls h)) = _url_index self.
Proof. now rewrite img_update_handler_spec. Qed.

(** ** Reading the current image *)

Section Reading.

Implicit Types (self : UrlCam).

Lemma index_in_range {A : Type} (l : list A) (i : Z) :
  0 <= i < len l ->
  exists x, nth_error l (Z.to_nat i) = Some x /\ index l i = Ok x.
Proof.
  intros Hi. unfold index.
  destruct (Z.ltb_spec i 0); [lia|].
  destruct (Z.ltb_spec i 0); [lia|].
  destruct (Z.leb_spec (len l) i); [lia|]. simpl.
  destruct (nth_error l (Z.to_nat i)) as [x|] eqn:Hx; [eauto|].
  apply nth_error_None in Hx. unfold len in *. lia.
Qed.

(** With distinct keys, looking up the key found at a position gives the
    entry at that position. *)
Lemma current_url_in_range self :
  NoDup (keys (_urls self)) ->
  0 <= _url_index self < len (_urls self) ->
  exists k img,
    nth_error (_urls self) (Z.to_nat (_url_index self)) = Some (k, img) /\
    current_url self = Ok (url img).
Proof.
  intros Hd Hi. unfold current_url.
  assert (Hi' : 0 <= _url_index self < len (keys (_urls self))).
  { unfold len, keys in *. now rewrite length_map. }
  destruct (index_in_range _ _ Hi') as (k & Hk & ->).
  unfold keys in Hk. rewrite nth_error_map in Hk.
  destruct (nth_error (_urls self) (Z.to_nat (_url_index self)))
    as [[k' img]|] eqn:Hnth; [|discriminate].
  injection Hk as ->. exists k, img. split; [reflexivity|].
  rewrite (In_getitem _ _ _ Hd (nth_error_In _ _ Hnth)). reflexivity.
Qed.


End Reading.



(** ** Fetching the image bytes *)

Section Fetching.

Variable net : Network.

Implicit Types (self : UrlCam) (h : Host).

Lemma camera_image_default self h :
  len (_urls self) = _url_index self ->
  fst (camera_image net self h)
  = Ok (content (net (requests_sent h) _default_url)).
Proof.
  intros H. unfold camera_image. rewrite H, Z.eqb_refl. reflexivity.
Qed.

Lemma camera_image_success self h u :
  len (_urls self) <> _url_index self ->
  current_url self = Ok u ->
  status_code (net (requests_sent h) u) = 200 ->
  fst (camera_image net self h) = Ok (content (net (requests_sent h) u)).
Proof.
  intros Hne Hu Hs. unfold camera_image.
  destruct (Z.eqb_spec (len (_urls self)) (_url_index self)); [contradiction|].
  rewrite Hu. unfold requests_get. rewrite Hs. reflexivity.
Qed.

(** A status other than 200 sends a second request, for the default image,
    whose body is returned. *)
Lemma camera_image_failure self h u :
  len (_urls self) <> _url_index self ->
  current_url self = Ok u ->
  status_code (net (requests_sent h) u) <> 200 ->
  fst (camera_image net self h)
  = Ok (content (net (S (requests_sent h)) _default_url)) /\
  errors_logged (snd (camera_image net self h)) = u :: errors_logged h /\
  requests_sent (snd (camera_image net self h)) = S (S (requests_sent h)).
Proof.
  intros Hne Hu Hs. unfold camera_image.
  destruct (Z.eqb_spec (len (_urls self)) (_url_index self)); [contradiction|].
  rewrite Hu. unfold requests_get.
  destruct (Z.eqb_spec (status_code (net (requests_sent h) u)) 200);
    [contradiction|].
  repeat split.
Qed.

Lemma state_current_url self :
  len (_urls self) <> _url_index self -> state self = current_url self.
Proof.
  intros Hne. unfold state.
  now destruct (Z.eqb_spec (len (_urls self)) (_url_index self)).
Qed.

Lemma camera_image_in_range self h :
  NoDup (keys (_urls self)) ->
  0 <= _url_index self <= len (_urls self) ->
  exists img, fst (camera_image net self h) = Ok img.
Proof.
  intros Hd Hi.
  destruct (Z.eq_dec (len (_urls self)) (_url_index self)) as [He|Hne].
  - rewrite camera_image_default by exact He. eauto.
  - destruct (current_url_in_range self Hd) as (k & img & _ & Hu); [lia|].
    destruct (Z.eq_dec (status_code (net (requests_sent h) (url img))) 200)
      as [Hs|Hs].
    + rewrite (camera_image_success self h _ Hne Hu Hs). eauto.
    + destruct (camera_image_failure self h _ Hne Hu Hs) as (-> & _). eauto.
Qed.

End Fetching.


(** ** Eviction *)

Lemma store_distinct3 (img1 img2 img3 : ImgUrl) :
  NoDup [image_key img1; image_key img2; image_key img3] ->
  store [] [img1; img2; img3]
  = [(image_key img1, img1); (image_key img2, img2); (image_key img3, img3)].
Proof.
  intros Hnd.
  inversion Hnd as [|? ? H1 Hnd']; subst.
  inversion Hnd' as [|? ? H2 _]; subst.
  unfold store. cbn [fold_left].
  change (setitem [] (image_key img1) img1) with [(image_key img1, img1)].
  rewrite (setitem_absent [(image_key img1, img1)] (image_key img2) img2).
  - cbn [app]. rewrite setitem_absent; [reflexivity|].
    simpl. simpl in H1, H2. intuition congruence.
  - simpl. simpl in H1. intuition congruence.
Qed.

(** C7. An update keeps the most recent images: with distinct keys before
    and a positive [_max_images], what is stored afterwards is the tail of
    the old and the accepted new images sorted by date, [_max_images] long
    or all of them, and nothing dropped is more recent than anything kept.
    Starting empty with a maximum of 2, three valid URLs dated 1, 2 and 3
    leave exactly the ones dated 2 and 3. *)
Theorem eviction_keeps_most_recent :
  (forall (net : Network) (self : UrlCam) (img_urls : list ImgUrl) (h : Host),
     NoDup (keys (_urls self)) ->
     0 < _max_images self ->
     let merged := store (_urls self) (accepted net (requests_sent h) img_urls) in
     let kept := _urls (fst (img_update_handler net self img_urls h)) in
     exists evicted,
       sorted date_of_item merged = evicted ++ kept /\
       len kept = Z.min (_max_images self) (len merged) /\
       forall old new,
         In old evicted -> In new kept -> date (snd old) <= date (snd new)) /\
  (forall (net : Network) (img1 img2 img3 : ImgUrl),
     date img1 = 1 -> date img2 = 2 -> date img3 = 3 ->
     NoDup [image_key img1; image_key img2; image_key img3] ->
     accepted net 0 [img1; img2; img3] = [img1; img2; img3] ->
     _urls (fst (img_update_handler net (fst (UrlCam_init 2 true fresh_host))
                   [img1; img2; img3] (snd (UrlCam_init 2 true fresh_host))))
     = [(image_key img2, img2); (image_key img3, img3)]).
Proof.
  split.
  - intros net self img_urls h Hd HN merged kept.
    assert (Hm : NoDup (keys merged)) by now apply NoDup_keys_store.
    assert (Hkept : kept = slice_from (- _max_images self)
                             (sorted date_of_item merged)).
    { subst kept. rewrite img_update_handler_spec. cbn [fst set_urls _urls].
      now apply sort_and_truncate_distinct. }
    destruct (slice_from_split (- _max_images self) (sorted date_of_item merged))
      as [evicted Hsplit].
    rewrite <- Hkept in Hsplit. exists evicted.
    split; [exact Hsplit|]. split.
    + rewrite Hkept, len_slice_last by exact HN. unfold len.
      now rewrite length_sorted.
    + intros old new Hold Hnew.
      apply (StronglySorted_app_le date_of_item evicted kept); try assumption.
      rewrite <- Hsplit. apply sorted_sorted.
  - intros net img1 img2 img3 H1 H2 H3 Hnd Hacc.
    rewrite img_update_handler_spec. cbn [fst snd UrlCam_init fresh_host
      url_dump set_urls _urls _pickle_urls write_dump requests_sent].
    rewrite Hacc, (store_distinct3 _ _ _ Hnd).
    rewrite sort_and_truncate_distinct by exact Hnd.
    unfold sorted, date_of_item. cbn [fold_right insert snd _max_images].
    rewrite H2, H3. cbn [Z.leb Z.compare Pos.compare Pos.compare_cont insert snd].
    rewrite H1, H2. reflexivity.
Qed.

Lemma eviction_keeps_most_recent_witness :
  (date ride1 = 1 /\ date ride2 = 2 /\ date ride3 = 3) /\
  NoDup [image_key ride1; image_key ride2; image_key ride3] /\
  accepted net_ok 0 [ride1; ride2; ride3] = [ride1; ride2; ride3] /\
  _urls (fst (img_update_handler net_ok (fst (UrlCam_init 2 true fresh_host))
                [ride1; ride2; ride3] (snd (UrlCam_init 2 true fresh_host))))
  = [(image_key ride2, ride2); (image_key ride3, ride3)].
Proof.
  assert (Hnd : NoDup [image_key ride1; image_key ride2; image_key ride3]).
  { repeat constructor; vm_compute; intuition discriminate. }
  assert (Hacc : accepted net_ok 0 [ride1; ride2; ride3] = [ride1; ride2; ride3])
    by (vm_compute; reflexivity).
  exact (conj (conj eq_refl (conj eq_refl eq_refl))
           (conj Hnd
              (conj Hacc
                 (proj2 eviction_keeps_most_recent net_ok ride1 ride2 ride3
                    eq_refl eq_refl eq_refl Hnd Hacc)))).
Defined.

(** ** Ingesting the same URL again *)

Section LastWrite.

Variable net : Network.

Implicit Types (self : UrlCam) (h : Host) (img : ImgUrl).

Lemma count_keys_le_1 (d : dict ImgUrl) (k : string) :
  NoDup (keys d) -> (count_occ string_dec (keys d) k <= 1)%nat.
Proof. intros Hd. now apply NoDup_count_occ. Qed.

Lemma count_keys_1 (d : dict ImgUrl) (k : string) (v : ImgUrl) :
  NoDup (keys d) -> getitem d k = Ok v ->
  count_occ string_dec (keys d) k = 1%nat.
Proof.
  intros Hd Hv. pose proof (count_keys_le_1 d k Hd) as Hle.
  assert (Hin : In k (keys d)).
  { change k with (fst (k, v)). apply in_map. now apply getitem_In. }
  apply (count_occ_In string_dec) in Hin. lia.
Qed.

(** Of the images of one event accepted under the same key, the last one is
    the one stored, if the key is stored at all. *)
Lemma update_last_write self img_urls h pre img post :
  NoDup (keys (_urls self)) ->
  accepted net (requests_sent h) img_urls = pre ++ img :: post ->
  (forall x, In x post -> image_key x <> image_key img) ->
  stored_at_most_once (_urls (fst (img_update_handler net self img_urls h))) img.
Proof.
  intros Hd Hacc Hpost. rewrite img_update_handler_spec.
  cbn [fst set_urls _urls]. rewrite Hacc.
  pose proof (NoDup_keys_store (pre ++ img :: post) _ Hd) as Hm.
  split.
  - apply count_keys_le_1. now apply NoDup_keys_sort_and_truncate.
  - intros v Hv. apply getitem_In in Hv.
    apply In_sort_and_truncate in Hv; [|exact Hm].
    apply (In_getitem _ _ _ Hm) in Hv.
    rewrite getitem_store_last in Hv by exact Hpost. congruence.
Qed.

(** It is stored when the truncation has nothing to drop. *)
Lemma update_stores_with_room self img_urls h pre img post :
  NoDup (keys (_urls self)) ->
  accepted net (requests_sent h) img_urls = pre ++ img :: post ->
  (forall x, In x post -> image_key x <> image_key img) ->
  _max_images self = 0 \/
  len (store (_urls self) (pre ++ img :: post)) <= _max_images self ->
  stored_once (_urls (fst (img_update_handler net self img_urls h))) img.
Proof.
  intros Hd Hacc Hpost Hroom. rewrite img_update_handler_spec.
  cbn [fst set_urls _urls]. rewrite Hacc.
  pose proof (NoDup_keys_store (pre ++ img :: post) _ Hd) as Hm.
  assert (Hget : getitem (sort_and_truncate self
                            (store (_urls self) (pre ++ img :: post)))
                         (image_key img) = Ok img).
  { apply In_getitem; [now apply NoDup_keys_sort_and_truncate|].
    assert (Hs : sort_and_truncate self (store (_urls self) (pre ++ img :: post))
                 = sorted date_of_item (store (_urls self) (pre ++ img :: post))).
    { destruct Hroom as [H0|Hle];
        [now apply sort_and_truncate_unbounded | now apply sort_and_truncate_room]. }
    rewrite Hs.
    apply (Permutation_in _ (Permutation_sym (sorted_perm date_of_item _))).
    apply getitem_In. now apply getitem_store_last. }
  split; [|exact Hget].
  apply (count_keys_1 _ _ img); [|exact Hget].
  now apply NoDup_keys_sort_and_truncate.
Qed.

Lemma accepted_one h img :
  status_code (net (requests_sent h) (url img)) = 200 ->
  accepted net (requests_sent h) [img] = [img].
Proof. intros H. cbn [accepted]. now rewrite H. Qed.

Lemma accepted_two (t : nat) img1 img2 :
  status_code (net t (url img1)) = 200 ->
  status_code (net (S t) (url img2)) = 200 ->
  accepted net t [img1; img2] = [img1; img2].
Proof. intros H1 H2. cbn [accepted]. now rewrite H1, H2. Qed.

Lemma image_key_url img1 img2 :
  url img1 = url img2 -> image_key img1 = image_key img2.
Proof. unfold image_key. now intros ->. Qed.

End LastWrite.

Section Reingest.

Variable net : Network.

Implicit Types (self : UrlCam) (h : Host) (img : ImgUrl).

Lemma requests_sent_update self img_urls h :
  requests_sent (snd (img_update_handler net self img_urls h))
  = (requests_sent h + List.length img_urls)%nat.
Proof. now rewrite img_update_handler_spec. Qed.

Lemma NoDup_keys_update self img_urls h :
  NoDup (keys (_urls self)) ->
  NoDup (keys (_urls (fst (img_update_handler net self img_urls h)))).
Proof.
  intros Hd. rewrite img_update_handler_spec. cbn [fst set_urls _urls].
  now apply NoDup_keys_sort_and_truncate, NoDup_keys_store.
Qed.

(** With a free place, a first accepted image is stored and the store still
    fits. *)
Lemma first_update_room self img h :
  NoDup (keys (_urls self)) ->
  len (_urls self) < _max_images self ->
  status_code (net (requests_sent h) (url img)) = 200 ->
  In (image_key img) (keys (_urls (fst (img_update_handler net self [img] h)))) /\
  len (_urls (fst (img_update_handler net self [img] h))) <= _max_images self.
Proof.
  intros Hd Hroom Hok. rewrite img_update_handler_spec.
  cbn [fst set_urls _urls]. rewrite (accepted_one net h img Hok).
  pose proof (NoDup_keys_store [img] _ Hd) as Hm.
  pose proof (length_store_le [img] (_urls self)) as Hle. cbn [List.length] in Hle.
  assert (Hfit : len (store (_urls self) [img]) <= _max_images self)
    by (unfold len in *; lia).
  rewrite sort_and_truncate_room by assumption. split.
  - apply (Permutation_in (l := keys (store (_urls self) [img]))).
    + unfold keys. apply Permutation_map, Permutation_sym, sorted_perm.
    + apply In_keys_setitem.
  - unfold len in *. now rewrite length_sorted.
Qed.

End Reingest.

(** ** Where a new entry goes in the sorted store *)

Section Appended.

Context {A : Type} (key : A -> Z).

Lemma insert_app_stop (e x : A) (l1 l2 : list A) :
  key e <= key x ->
  insert key e (l1 ++ x :: l2) = insert key e l1 ++ x :: l2.
Proof.
  intros Hex. induction l1 as [|y l1 IH]; cbn [app insert].
  - destruct (Z.leb_spec (key e) (key x)); [reflexivity|lia].
  - destruct (key e <=? key y); [reflexivity|]. cbn [app]. now rewrite IH.
Qed.

Lemma insert_app_pass (e : A) (l1 l : list A) :
  (forall y, In y l1 -> key y < key e) ->
  insert key e (l1 ++ l) = l1 ++ insert key e l.
Proof.
  induction l1 as [|y l1 IH]; intros Hlt; cbn [app insert]; [reflexivity|].
  destruct (Z.leb_spec (key e) (key y)) as [Hle|_].
  - specialize (Hlt y (or_introl eq_refl)). lia.
  - rewrite IH; [reflexivity|]. intros z Hz. apply Hlt. now right.
Qed.

Lemma sorted_snoc (d : list A) (x : A) :
  sorted key (d ++ [x]) = fold_right (insert key) [x] d.
Proof. unfold sorted. now rewrite fold_right_app. Qed.

(** Sorting is stable: an element appended last comes after every element
    that is no younger than it. *)
Lemma sorted_snoc_split (d : list A) (x : A) :
  exists l1 l2,
    sorted key (d ++ [x]) = l1 ++ x :: l2 /\
    (forall y, In y d -> key y <= key x -> In y l1) /\
    (forall y, In y l1 -> key y <= key x).
Proof.
  rewrite sorted_snoc. induction d as [|e d (l1 & l2 & Hs & Hin & Hle)].
  - exists [], []. cbn. repeat split; intros; contradiction.
  - cbn [fold_right]. rewrite Hs.
    destruct (Z.le_gt_cases (key e) (key x)) as [Hex|Hex].
    + exists (insert key e l1), l2. split; [now apply insert_app_stop|].
      split.
      * intros y [<-|Hy] Hyx;
          apply (Permutation_in _ (Permutation_sym (insert_perm key _ l1)));
          [now left | right; now apply Hin].
      * intros y Hy. apply (Permutation_in _ (insert_perm key e l1)) in Hy.
        destruct Hy as [<-|Hy]; [exact Hex | now apply Hle].
    + exists l1, (insert key e l2). split.
      * change (l1 ++ x :: l2) with (l1 ++ [x] ++ l2).
        rewrite app_assoc, insert_app_pass, <- app_assoc; [reflexivity|].
        intros y Hy. apply in_app_or in Hy.
        destruct Hy as [Hy|[<-|[]]]; [specialize (Hle y Hy); lia | lia].
      * split; [|exact Hle].
        intros y [<-|Hy] Hyx; [lia | now apply Hin].
Qed.

(** An element appended last that is older than all the others is sorted
    first. *)
Lemma sorted_snoc_oldest (d : list A) (x : A) :
  (forall y, In y d -> key x < key y) ->
  sorted key (d ++ [x]) = x :: sorted key d.
Proof.
  rewrite sorted_snoc. induction d as [|e d IH]; intros Hnew; [reflexivity|].
  cbn [fold_right]. rewrite IH by (intros y Hy; apply Hnew; now right).
  cbn [insert sorted fold_right].
  destruct (Z.leb_spec (key e) (key x)) as [Hle|_]; [|reflexivity].
  specialize (Hnew e (or_introl eq_refl)). lia.
Qed.

Lemma slice_last_drops_one (n : Z) (a : A) (l : list A) :
  0 < n -> len l = n -> slice_from (- n) (a :: l) = l.
Proof.
  intros Hn Hl. unfold slice_from, len in *. cbn [List.length].
  destruct (Z.ltb_spec (- n) 0); [|lia].
  replace (Z.to_nat _) with 1%nat by lia. reflexivity.
Qed.

End Appended.

Section AppendedEntry.

Implicit Types (self : UrlCam) (d : dict ImgUrl) (img : ImgUrl).

Lemma holds_as_old_dec d (t : Z) :
  holds_as_old d t \/ (forall k_v, In k_v d -> t < date (snd k_v)).
Proof.
  induction d as [|e d [(y & Hy & Hle)|IH]].
  - right. intros k_v [].
  - left. exists y. split; [now right | exact Hle].
  - destruct (Z.le_gt_cases (date (snd e)) t) as [Hle|Hgt].
    + left. exists e. split; [now left | exact Hle].
    + right. intros k_v [<-|Hin]; [lia | now apply IH].
Qed.

Lemma holds_as_old_perm d d' (t : Z) :
  Permutation d d' -> holds_as_old d t -> holds_as_old d' t.
Proof.
  intros Hp (y & Hy & Hle). exists y. split; [|exact Hle].
  now apply (Permutation_in _ Hp).
Qed.

(** A new entry appended to a store that fits is kept when there is room or
    when some stored image is no younger than it. *)
Lemma appended_kept self d img :
  NoDup (keys (d ++ [(image_key img, img)])) ->
  0 < _max_images self ->
  len d <= _max_images self ->
  len d < _max_images self \/ holds_as_old d (date img) ->
  stored_once (sort_and_truncate self (d ++ [(image_key img, img)])) img.
Proof.
  intros Hnd HN Hfit Hwhy.
  assert (Hin : In (image_key img, img)
                   (sort_and_truncate self (d ++ [(image_key img, img)]))).
  { rewrite sort_and_truncate_distinct by exact Hnd.
    destruct (Z.eq_dec (len d) (_max_images self)) as [Hfull|Hroom].
    - destruct Hwhy as [Hlt|(e & He & Hle)]; [lia|].
      destruct (sorted_snoc_split date_of_item d (image_key img, img))
        as (l1 & l2 & Hs & Hl1 & _).
      specialize (Hl1 e He Hle). rewrite Hs.
      destruct l1 as [|a l1]; [contradiction|]. cbn [app].
      rewrite slice_last_drops_one.
      + apply in_or_app. right. now left.
      + exact HN.
      + assert (Hlen : List.length (sorted date_of_item (d ++ [(image_key img, img)]))
                       = S (List.length d))
          by (rewrite length_sorted, length_app; cbn; lia).
        rewrite Hs in Hlen. cbn [app List.length] in Hlen.
        unfold len in *. lia.
    - rewrite slice_from_all.
      + apply (Permutation_in _ (Permutation_sym (sorted_perm date_of_item _))).
        apply in_or_app. right. now left.
      + unfold len in *. rewrite length_sorted, length_app. cbn. lia. }
  assert (Hget : getitem (sort_and_truncate self (d ++ [(image_key img, img)]))
                   (image_key img) = Ok img)
    by (apply In_getitem; [now apply NoDup_keys_sort_and_truncate | exact Hin]).
  split; [|exact Hget].
  apply (count_keys_1 _ _ img); [now apply NoDup_keys_sort_and_truncate|exact Hget].
Qed.

(** Appended to a full store of younger images, it is dropped at once. *)
Lemma appended_dropped self d img :
  NoDup (keys (d ++ [(image_key img, img)])) ->
  0 < _max_images self ->
  len d = _max_images self ->
  (forall k_v, In k_v d -> date img < date (snd k_v)) ->
  sort_and_truncate self (d ++ [(image_key img, img)]) = sorted date_of_item d.
Proof.
  intros Hnd HN Hfull Hnew.
  rewrite sort_and_truncate_distinct by exact Hnd.
  rewrite sorted_snoc_oldest by exact Hnew.
  apply slice_last_drops_one; [exact HN|].
  unfold len in *. now rewrite length_sorted.
Qed.

Lemma setitem_app_last d (k : string) (v v' : ImgUrl) :
  ~ In k (keys d) -> setitem (d ++ [(k, v)]) k v' = d ++ [(k, v')].
Proof.
  induction d as [|[k0 v0] d IH]; intros Hout; cbn [app setitem].
  - now rewrite String.eqb_refl.
  - destruct (String.eqb_spec k0 k) as [->|Hne].
    + exfalso. apply Hout. now left.
    + rewrite IH; [reflexivity|]. intros Hin. apply Hout. now right.
Qed.

Lemma stored_once_In_keys d img : stored_once d img -> In (image_key img) (keys d).
Proof.
  intros [_ Hget]. apply getitem_In in Hget.
  change (image_key img) with (fst (image_key img, img)). now apply in_map.
Qed.

End AppendedEntry.

Section Evicted.

Variable net : Network.

Implicit Types (self : UrlCam) (h : Host) (img : ImgUrl) (d : dict ImgUrl).

Lemma NoDup_keys_snoc d (k : string) (v : ImgUrl) :
  NoDup (keys d) -> ~ In k (keys d) -> NoDup (keys (d ++ [(k, v)])).
Proof.
  intros Hd Hout. rewrite <- (setitem_absent d k v Hout).
  now apply NoDup_keys_setitem.
Qed.

Lemma In_keys_sorted d (k : string) :
  In k (keys (sorted date_of_item d)) <-> In k (keys d).
Proof.
  unfold keys. split; apply Permutation_in, Permutation_map;
    [apply sorted_perm | apply Permutation_sym, sorted_perm].
Qed.

(** A key that was not stored, appended to a store that fits: it is kept,
    or the store was full of younger images and is left as it was. *)
Lemma truncate_appended_cases self d img :
  NoDup (keys d) ->
  ~ In (image_key img) (keys d) ->
  0 < _max_images self ->
  len d <= _max_images self ->
  ((len d < _max_images self \/ holds_as_old d (date img)) /\
   stored_once (sort_and_truncate self (d ++ [(image_key img, img)])) img) \/
  (len d = _max_images self /\
   (forall k_v, In k_v d -> date img < date (snd k_v)) /\
   sort_and_truncate self (d ++ [(image_key img, img)]) = sorted date_of_item d).
Proof.
  intros Hd Hout HN Hfit.
  pose proof (NoDup_keys_snoc d _ img Hd Hout) as Hnd.
  destruct (Z.eq_dec (len d) (_max_images self)) as [Hfull|Hroom].
  - destruct (holds_as_old_dec d (date img)) as [Hold|Hnew].
    + left. split; [now right|]. apply appended_kept; auto.
    + right. split; [exact Hfull|]. split; [exact Hnew|].
      now apply appended_dropped.
  - assert (Hlt : len d < _max_images self) by lia.
    left. split; [now left|]. apply appended_kept; auto.
Qed.

(** One accepted image sent to a camera whose store fits. *)
Lemma update_one_cases self img h :
  NoDup (keys (_urls self)) ->
  0 < _max_images self ->
  len (_urls self) <= _max_images self ->
  status_code (net (requests_sent h) (url img)) = 200 ->
  ((len (_urls self) < _max_images self \/
    In (image_key img) (keys (_urls self)) \/
    holds_as_old (_urls self) (date img)) /\
   stored_once (_urls (fst (img_update_handler net self [img] h))) img) \/
  (len (_urls self) = _max_images self /\
   ~ In (image_key img) (keys (_urls self)) /\
   (forall k_v, In k_v (_urls self) -> date img < date (snd k_v)) /\
   _urls (fst (img_update_handler net self [img] h))
   = sorted date_of_item (_urls self)).
Proof.
  intros Hd HN Hfit Hok.
  destruct (In_keys_dec (_urls self) (image_key img)) as [Hin|Hout].
  - left. split; [right; now left|].
    apply update_stores_with_room with (pre := []) (post := []).
    + exact Hd.
    + now apply accepted_one.
    + intros x [].
    + right. unfold store. cbn [app fold_left]. unfold len in *.
      now rewrite length_setitem_present by exact Hin.
  - assert (Hd' : _urls (fst (img_update_handler net self [img] h))
                  = sort_and_truncate self (_urls self ++ [(image_key img, img)])).
    { rewrite img_update_handler_spec. cbn [fst set_urls _urls].
      rewrite (accepted_one net h img Hok). unfold store. cbn [fold_left].
      now rewrite setitem_absent. }
    rewrite Hd'.
    destruct (truncate_appended_cases self _ img Hd Hout HN Hfit)
      as [[Hwhy Hs]|(Hfull & Hnew & Heq)].
    + left. split; [|exact Hs]. destruct Hwhy; auto.
    + right. auto.
Qed.

(** Two accepted images of the same key in one event, sent to a camera
    whose store fits. *)
Lemma update_pair_cases self img1 img2 h :
  NoDup (keys (_urls self)) ->
  0 < _max_images self ->
  len (_urls self) <= _max_images self ->
  image_key img1 = image_key img2 ->
  status_code (net (requests_sent h) (url img1)) = 200 ->
  status_code (net (S (requests_sent h)) (url img2)) = 200 ->
  stored_once (_urls (fst (img_update_handler net self [img1; img2] h))) img2 <->
  len (_urls self) < _max_images self \/
  In (image_key img2) (keys (_urls self)) \/
  holds_as_old (_urls self) (date img2).
Proof.
  intros Hd HN Hfit Hkey Hok1 Hok2.
  assert (Hacc : accepted net (requests_sent h) [img1; img2]
                 = [img1] ++ img2 :: [])
    by now apply accepted_two.
  destruct (In_keys_dec (_urls self) (image_key img2)) as [Hin|Hout].
  - split; [intros _; right; now left|]. intros _.
    apply update_stores_with_room with (pre := [img1]) (post := []).
    + exact Hd.
    + exact Hacc.
    + intros x [].
    + right. unfold store. cbn [app fold_left]. rewrite Hkey. unfold len in *.
      rewrite length_setitem_present by apply In_keys_setitem.
      now rewrite length_setitem_present by exact Hin.
  - assert (Hd' : _urls (fst (img_update_handler net self [img1; img2] h))
                  = sort_and_truncate self (_urls self ++ [(image_key img2, img2)])).
    { rewrite img_update_handler_spec. cbn [fst set_urls _urls].
      rewrite Hacc. unfold store. cbn [app fold_left]. rewrite Hkey.
      rewrite (setitem_absent _ _ img1 Hout).
      now rewrite setitem_app_last by exact Hout. }
    rewrite Hd'.
    destruct (truncate_appended_cases self _ img2 Hd Hout HN Hfit)
      as [[Hwhy Hs]|(Hfull & Hnew & Heq)].
    + split; [intros _|intros _; exact Hs]. destruct Hwhy; auto.
    + rewrite Heq. split.
      * intros Hs. apply stored_once_In_keys in Hs.
        apply (proj1 (In_keys_sorted _ _)) in Hs. contradiction.
      * intros [Hlt|[Hin|(e & He & Hle)]]; [lia | contradiction |].
        specialize (Hnew e He). lia.
Qed.

(** The same key sent by two events in a row to a camera whose store
    fits. *)
Lemma reingest_cases self img1 img2 h :
  NoDup (keys (_urls self)) ->
  0 < _max_images self ->
  len (_urls self) <= _max_images self ->
  image_key img1 = image_key img2 ->
  status_code (net (requests_sent h) (url img1)) = 200 ->
  status_code (net (S (requests_sent h)) (url img2)) = 200 ->
  stored_once (_urls (fst (reingest net self img1 img2 h))) img2 <->
  len (_urls self) < _max_images self \/
  In (image_key img2) (keys (_urls self)) \/
  holds_as_old (_urls self) (date img1) \/
  holds_as_old (_urls self) (date img2).
Proof.
  intros Hd HN Hfit Hkey Hok1 Hok2. unfold reingest.
  pose proof (NoDup_keys_update net self [img1] h Hd) as Hd1.
  pose proof (max_images_update net self [img1] h) as HN1.
  assert (Hfit1 : len (_urls (fst (img_update_handler net self [img1] h)))
                  <= _max_images (fst (img_update_handler net self [img1] h))).
  { rewrite HN1, img_update_handler_spec. cbn [fst set_urls _urls].
    now apply len_sort_and_truncate_le. }
  assert (Hok2' : status_code
                    (net (requests_sent (snd (img_update_handler net self [img1] h)))
                         (url img2)) = 200).
  { rewrite requests_sent_update. cbn [List.length]. now rewrite Nat.add_1_r. }
  assert (HN1' : 0 < _max_images (fst (img_update_handler net self [img1] h)))
    by now rewrite HN1.
  destruct (update_one_cases (fst (img_update_handler net self [img1] h)) img2
              (snd (img_update_handler net self [img1] h)) Hd1 HN1' Hfit1 Hok2')
    as [[Hwhy2 Hs2]|(Hfull2 & Hout2 & Hnew2 & Heq2)];
    destruct (update_one_cases self img1 h Hd HN Hfit Hok1)
      as [[Hwhy1 Hs1]|(Hfull1 & Hout1 & Hnew1 & Heq1)].
  - split; [intros _|intros _; exact Hs2].
    rewrite <- Hkey. destruct Hwhy1 as [?|[?|?]]; auto.
  - split; [intros _|intros _; exact Hs2].
    rewrite Heq1 in Hwhy2.
    destruct Hwhy2 as [Hlt|[Hin|Hold]].
    + unfold len in *. rewrite length_sorted in Hlt. rewrite HN1 in Hlt. lia.
    + apply (proj1 (In_keys_sorted _ _)) in Hin. auto.
    + right. right. right.
      exact (holds_as_old_perm _ _ _ (sorted_perm date_of_item _) Hold).
  - exfalso. apply Hout2. rewrite <- Hkey. now apply stored_once_In_keys.
  - rewrite Heq2. split.
    + intros Hs. apply stored_once_In_keys in Hs.
      rewrite Heq1 in Hs. do 2 apply (proj1 (In_keys_sorted _ _)) in Hs.
      rewrite <- Hkey in Hs. contradiction.
    + rewrite Heq1 in Hnew2.
      intros [Hlt|[Hin|[(e & He & Hle)|(e & He & Hle)]]].
      * lia.
      * rewrite <- Hkey in Hin. contradiction.
      * specialize (Hnew1 e He). lia.
      * apply (Permutation_in _ (Permutation_sym (sorted_perm date_of_item _)))
          in He.
        specialize (Hnew2 e He). lia.
Qed.

End Evicted.

(** C6, as amended. The same URL ingested twice, by two events in a row or
    twice in one event, both times passing validation: its key is stored at
    most once and holds nothing but the second descriptor.  With
    [_max_images = 0] nothing is ever dropped and it is stored, exactly
    once.  With a positive [_max_images] and a store that fits it, the key
    is stored, exactly once and with the second descriptor, unless the store
    is full, the key is not in it and every stored image is strictly younger
    than both descriptors (than the second, when both come in one event):
    then, and only then, it is not stored. *)
Theorem reingest_last_write_wins (net : Network) (self : UrlCam)
  (img1 img2 : ImgUrl) (h : Host) :
  NoDup (keys (_urls self)) ->
  url img1 = url img2 ->
  status_code (net (requests_sent h) (url img1)) = 200 ->
  status_code (net (S (requests_sent h)) (url img2)) = 200 ->
  let two_events := _urls (fst (reingest net self img1 img2 h)) in
  let one_event := _urls (fst (img_update_handler net self [img1; img2] h)) in
  stored_at_most_once two_events img2 /\
  stored_at_most_once one_event img2 /\
  (_max_images self = 0 ->
   stored_once two_events img2 /\ stored_once one_event img2) /\
  (0 < _max_images self ->
   len (_urls self) <= _max_images self ->
   (stored_once two_events img2 <->
    len (_urls self) < _max_images self \/
    In (image_key img2) (keys (_urls self)) \/
    holds_as_old (_urls self) (date img1) \/
    holds_as_old (_urls self) (date img2)) /\
   (stored_once one_event img2 <->
    len (_urls self) < _max_images self \/
    In (image_key img2) (keys (_urls self)) \/
    holds_as_old (_urls self) (date img2))).
Proof.
  intros Hd Hurl Hok1 Hok2 two_events one_event.
  pose proof (NoDup_keys_update net self [img1] h Hd) as Hd1.
  pose proof (image_key_url img1 img2 Hurl) as Hkey.
  assert (Hacc2 : accepted net
                    (requests_sent (snd (img_update_handler net self [img1] h)))
                    [img2] = [] ++ img2 :: []).
  { rewrite requests_sent_update. cbn [List.length app].
    rewrite Nat.add_1_r. cbn [accepted]. now rewrite Hok2. }
  assert (Hacc : accepted net (requests_sent h) [img1; img2]
                 = [img1] ++ img2 :: [])
    by now apply accepted_two.
  assert (Hnone : forall x : ImgUrl, In x [] -> image_key x <> image_key img2)
    by (intros x []).
  split; [|split; [|split]].
  - subst two_events. unfold reingest.
    now apply update_last_write with (pre := []) (post := []).
  - subst one_event. now apply update_last_write with (pre := [img1]) (post := []).
  - intros H0. split.
    + subst two_events. unfold reingest.
      apply update_stores_with_room with (pre := []) (post := []);
        try assumption.
      left. now rewrite max_images_update.
    + subst one_event.
      apply update_stores_with_room with (pre := [img1]) (post := []);
        try assumption.
      now left.
  - intros HN Hfit. split.
    + subst two_events. now apply reingest_cases.
    + subst one_event. now apply update_pair_cases.
Qed.

(** C6, as stated, fails: a camera holding its two most recent images is
    sent an older image twice; both times it validates and both times the
    truncation drops it, so its key is not stored at all. *)
Lemma reingest_can_evict :
  NoDup (keys (_urls (fst full_camera))) /\
  status_code (net_ok (requests_sent (snd full_camera)) (url ride1)) = 200 /\
  status_code (net_ok (S (requests_sent (snd full_camera))) (url ride1)) = 200 /\
  ~ stored_once
      (_urls (fst (reingest net_ok (fst full_camera) ride1 ride1 (snd full_camera))))
      ride1.
Proof.
  split; [|split; [|split]].
  - exact (inv_keys _ _ (invariant_run net_ok 2 true [ImgUpdate [ride2; ride3]])).
  - vm_compute. reflexivity.
  - vm_compute. reflexivity.
  - intros [Hcount _]. vm_compute in Hcount. discriminate Hcount.
Qed.

Lemma reingest_last_write_wins_witness :
  NoDup (keys (_urls (fst full_camera))) /\
  url ride1 = url (photo (url ride1) 7) /\
  0 < _max_images (fst full_camera) /\
  len (_urls (fst full_camera)) <= _max_images (fst full_camera) /\
  holds_as_old (_urls (fst full_camera)) (date (photo (url ride1) 7)) /\
  stored_once
    (_urls (fst (reingest net_ok (fst full_camera) ride1
                   (photo (url ride1) 7) (snd full_camera))))
    (photo (url ride1) 7).
Proof.
  assert (Hd : NoDup (keys (_urls (fst full_camera))))
    by exact (inv_keys _ _ (invariant_run net_ok 2 true [ImgUpdate [ride2; ride3]])).
  assert (Hok1 : status_code
                   (net_ok (requests_sent (snd full_camera)) (url ride1)) = 200)
    by (vm_compute; reflexivity).
  assert (Hok2 : status_code
                   (net_ok (S (requests_sent (snd full_camera)))
                      (url (photo (url ride1) 7))) = 200)
    by (vm_compute; reflexivity).
  assert (HN : 0 < _max_images (fst full_camera)) by (vm_compute; reflexivity).
  assert (Hfit : len (_urls (fst full_camera)) <= _max_images (fst full_camera))
    by (vm_compute; discriminate).
  assert (Hold : holds_as_old (_urls (fst full_camera))
                   (date (photo (url ride1) 7))).
  { exists (image_key ride2, ride2). split.
    - vm_compute. left. reflexivity.
    - vm_compute. discriminate. }
  exact (conj Hd
           (conj eq_refl
              (conj HN
                 (conj Hfit
                    (conj Hold
                       (proj2
                          (proj1
                             (proj2 (proj2 (proj2
                                (reingest_last_write_wins net_ok
                                   (fst full_camera) ride1
                                   (photo (url ride1) 7)
                                   (snd full_camera)
                                   Hd eq_refl Hok1 Hok2))) HN Hfit))
                          (or_intror (or_intror (or_intror Hold))))))))).
Defined.

(** ** Images that fail validation *)

Section Kept.

Context {A : Type} (key : A -> Z).

Lemma length_filter_le (f : A -> bool) (l : list A) :
  (List.length (filter f l) <= List.length l)%nat.
Proof.
  induction l as [|y l IH]; cbn [filter List.length]; [lia|].
  destruct (f y); cbn [List.length]; lia.
Qed.

Lemma length_filter_lt (f : A -> bool) (l : list A) (x : A) :
  In x l -> f x = false -> (List.length (filter f l) < List.length l)%nat.
Proof.
  induction l as [|y l IH]; intros Hin Hx; [contradiction|].
  cbn [filter List.length]. destruct Hin as [->|Hin].
  - rewrite Hx. pose proof (length_filter_le f l). lia.
  - specialize (IH Hin Hx). destruct (f y); cbn [List.length]; lia.
Qed.

Lemma length_filter_pos (f : A -> bool) (l : list A) (x : A) :
  In x l -> f x = true -> (0 < List.length (filter f l))%nat.
Proof.
  intros Hin Hx.
  assert (Hf : In x (filter f l)) by (apply filter_In; auto).
  destruct (filter f l); [contradiction | cbn; lia].
Qed.

Lemma length_filter_all (f : A -> bool) (l : list A) :
  (forall y, In y l -> f y = true) -> List.length (filter f l) = List.length l.
Proof.
  induction l as [|y l IH]; intros Hall; cbn [filter]; [reflexivity|].
  rewrite (Hall y (or_introl eq_refl)). cbn [List.length]. f_equal.
  apply IH. intros z Hz. apply Hall. now right.
Qed.

Lemma length_filter_none (f : A -> bool) (l : list A) :
  (forall y, In y l -> f y = false) -> List.length (filter f l) = 0%nat.
Proof.
  induction l as [|y l IH]; intros Hnone; cbn [filter]; [reflexivity|].
  rewrite (Hnone y (or_introl eq_refl)). apply IH.
  intros z Hz. apply Hnone. now right.
Qed.

Lemma length_filter_perm (f : A -> bool) (l l' : list A) :
  Permutation l l' -> List.length (filter f l) = List.length (filter f l').
Proof.
  induction 1 as [|y l l' _ IH|y z l|l l' l'' _ IH1 _ IH2];
    cbn [filter]; [reflexivity| | |congruence].
  - destruct (f y); cbn [List.length]; now rewrite IH.
  - destruct (f y), (f z); reflexivity.
Qed.

(** Of a list in ascending order, [l[-n:]] holds an element that has no more
    than [n] elements at least as large, itself among them. *)
Lemma kept_if_few_as_large (n : Z) (l : list A) (x : A) :
  StronglySorted (key_le key) l -> In x l -> 0 < n ->
  len (filter (fun y => key x <=? key y) l) <= n ->
  In x (slice_from (- n) l).
Proof.
  intros Hs Hin Hn Hfew.
  pose proof (len_slice_last n l Hn) as Hlen.
  destruct (slice_from_split (- n) l) as [dropped Hsplit].
  remember (slice_from (- n) l) as t eqn:Ht. clear Ht.
  rewrite Hsplit in Hs, Hin, Hfew, Hlen.
  apply in_app_or in Hin. destruct Hin as [Hin|Hin]; [exfalso|exact Hin].
  unfold len in *. rewrite filter_app, length_app in Hfew.
  rewrite length_app in Hlen.
  pose proof (length_filter_pos (fun y => key x <=? key y) dropped x Hin
                (proj2 (Z.leb_le _ _) (Z.le_refl _))) as Hpos.
  rewrite (length_filter_all (fun y => key x <=? key y) t) in Hfew.
  - destruct dropped; [contradiction|]. cbn [List.length] in Hlen. lia.
  - intros y Hy. apply Z.leb_le.
    exact (StronglySorted_app_le key _ _ _ _ Hs Hin Hy).
Qed.

(** And an element it holds has fewer than [n] elements that are larger. *)
Lemma few_larger_if_kept (n : Z) (l : list A) (x : A) :
  StronglySorted (key_le key) l -> 0 < n ->
  In x (slice_from (- n) l) ->
  len (filter (fun y => key x <? key y) l) < n.
Proof.
  intros Hs Hn Hin.
  pose proof (len_slice_last n l Hn) as Hlen.
  destruct (slice_from_split (- n) l) as [dropped Hsplit].
  remember (slice_from (- n) l) as t eqn:Ht. clear Ht.
  rewrite Hsplit in Hs. rewrite Hsplit.
  unfold len in *. rewrite filter_app, length_app.
  rewrite (length_filter_none (fun y => key x <? key y) dropped).
  - pose proof (length_filter_lt (fun y => key x <? key y) t x Hin
                  (proj2 (Z.ltb_ge _ _) (Z.le_refl _))).
    lia.
  - intros y Hy. apply Z.ltb_ge.
    exact (StronglySorted_app_le key _ _ _ _ Hs Hy Hin).
Qed.

End Kept.

Section KeptEntry.

Implicit Types (self : UrlCam) (d : dict ImgUrl) (img : ImgUrl).

Lemma In_stored_once d img :
  NoDup (keys d) -> In (image_key img, img) d -> stored_once d img.
Proof.
  intros Hd Hin. pose proof (In_getitem _ _ _ Hd Hin) as Hget.
  split; [|exact Hget]. now apply (count_keys_1 _ _ img).
Qed.

(** An entry is kept by the truncation when no more than [_max_images]
    entries are dated at its date or later. *)
Lemma truncate_keeps_recent self d img :
  NoDup (keys d) -> 0 < _max_images self ->
  In (image_key img, img) d ->
  len (dated_from d (date img)) <= _max_images self ->
  stored_once (sort_and_truncate self d) img.
Proof.
  intros Hd HN Hin Hfew.
  apply In_stored_once; [now apply NoDup_keys_sort_and_truncate|].
  rewrite sort_and_truncate_distinct by exact Hd.
  apply (kept_if_few_as_large date_of_item).
  - apply sorted_sorted.
  - now apply (Permutation_in _ (Permutation_sym (sorted_perm date_of_item d))).
  - exact HN.
  - unfold len in *.
    rewrite (length_filter_perm _ _ _ (sorted_perm date_of_item d)).
    exact Hfew.
Qed.

(** An entry it keeps has fewer than [_max_images] entries dated later. *)
Lemma truncate_kept_is_recent self d img :
  NoDup (keys d) -> 0 < _max_images self ->
  stored_once (sort_and_truncate self d) img ->
  len (dated_after d (date img)) < _max_images self.
Proof.
  intros Hd HN [_ Hget]. apply getitem_In in Hget.
  rewrite sort_and_truncate_distinct in Hget by exact Hd.
  pose proof (few_larger_if_kept date_of_item _ _ _
                (sorted_sorted date_of_item d) HN Hget) as Hfew.
  unfold len in *.
  rewrite (length_filter_perm _ _ _ (sorted_perm date_of_item d)) in Hfew.
  exact Hfew.
Qed.

End KeptEntry.

(** C8, as amended. An update raises nothing for a URL that fails
    validation: it logs the URL and goes on, and what it stores is what the
    accepted images alone give.  So an entry stored afterwards was stored
    before or is an accepted image of the batch; the key of a rejected image,
    not stored before and shared with no accepted image, is not stored.  An
    accepted image, not followed by an accepted one of the same key, is
    stored whenever the truncation has nothing to drop; with a positive
    [_max_images] it is stored when no more than [_max_images] of the
    entries, old and new, are dated at its date or later, and only when
    fewer than [_max_images] of them are dated later. *)
Theorem update_skips_invalid_urls (net : Network) (self : UrlCam)
  (img_urls : list ImgUrl) (h : Host) :
  NoDup (keys (_urls self)) ->
  let good := accepted net (requests_sent h) img_urls in
  let bad := rejected net (requests_sent h) img_urls in
  let after := img_update_handler net self img_urls h in
  let d := _urls (fst after) in
  (d = sort_and_truncate self (store (_urls self) good) /\
   errors_logged (snd after) = rev (map url bad) ++ errors_logged h) /\
  (forall k v, In (k, v) d ->
     In (k, v) (_urls self) \/ (In v good /\ k = image_key v)) /\
  (forall img, In img bad ->
     ~ In (image_key img) (keys (_urls self)) ->
     (forall v, In v good -> image_key v <> image_key img) ->
     ~ In (image_key img) (keys d)) /\
  (_max_images self = 0 \/
   len (store (_urls self) good) <= _max_images self ->
   forall pre img post,
     good = pre ++ img :: post ->
     (forall x, In x post -> image_key x <> image_key img) ->
     stored_once d img) /\
  (0 < _max_images self ->
   forall pre img post,
     good = pre ++ img :: post ->
     (forall x, In x post -> image_key x <> image_key img) ->
     (len (dated_from (store (_urls self) good) (date img)) <= _max_images self ->
      stored_once d img) /\
     (stored_once d img ->
      len (dated_after (store (_urls self) good) (date img)) < _max_images self)).
Proof.
  intros Hd good bad after d.
  pose proof (NoDup_keys_store good _ Hd) as Hm.
  assert (Hafter : after
                   = (set_urls self (sort_and_truncate self (store (_urls self) good)),
                      {| requests_sent := requests_sent h + List.length img_urls;
                         url_dump := Some (sort_and_truncate self
                                             (store (_urls self) good));
                         ha_state_writes := ha_state_writes h;
                         errors_logged := rev (map url bad) ++ errors_logged h |}))
    by apply img_update_handler_spec.
  assert (Hdd : d = sort_and_truncate self (store (_urls self) good))
    by (subst d; now rewrite Hafter).
  assert (Hfrom : forall k v, In (k, v) d ->
            In (k, v) (_urls self) \/ (In v good /\ k = image_key v)).
  { intros k v Hin. rewrite Hdd in Hin.
    apply In_sort_and_truncate in Hin; [|exact Hm]. now apply In_store. }
  split; [split; [exact Hdd | now rewrite Hafter]|].
  split; [exact Hfrom|]. split; [|split].
  - intros img _ Hold Hnew Hin. unfold keys in Hin.
    apply in_map_iff in Hin. destruct Hin as ([k v] & Hk & Hin).
    simpl in Hk. subst k.
    destruct (Hfrom _ _ Hin) as [Hbefore|[Hgood Hkey]].
    + apply Hold. change (image_key img) with (fst (image_key img, v)).
      now apply in_map.
    + now apply (Hnew v).
  - intros Hroom pre img post Hgood Hpost. subst d.
    apply update_stores_with_room with (pre := pre) (post := post);
      try assumption.
    now rewrite <- Hgood.
  - intros HN pre img post Hgood Hpost. rewrite Hdd. split.
    + apply truncate_keeps_recent; try assumption.
      apply getitem_In. rewrite Hgood. now apply getitem_store_last.
    + now apply truncate_kept_is_recent.
Qed.

(** C8, as stated, fails: with room for two images, of three URLs that all
    validate the oldest is not stored. *)
Lemma valid_image_can_be_dropped :
  ~ keeps_valid_drops_invalid net_ok (fst (UrlCam_init 2 true fresh_host))
      [ride1; ride2; ride3] (snd (UrlCam_init 2 true fresh_host)).
Proof.
  intros [_ Hkept].
  assert (Hin : In ride1
                  (accepted net_ok
                     (requests_sent (snd (UrlCam_init 2 true fresh_host)))
                     [ride1; ride2; ride3]))
    by (vm_compute; auto).
  specialize (Hkept ride1 Hin). vm_compute in Hkept.
  destruct Hkept as [H|[H|[]]]; discriminate H.
Qed.

Lemma update_skips_invalid_urls_witness :
  NoDup (keys (_urls (fst (UrlCam_init 5 true fresh_host)))) /\
  rejected (net_except (url ride2))
    (requests_sent (snd (UrlCam_init 5 true fresh_host)))
    [ride1; ride2; ride3] = [ride2] /\
  forall k v,
    In (k, v)
       (_urls (fst (img_update_handler (net_except (url ride2))
                      (fst (UrlCam_init 5 true fresh_host))
                      [ride1; ride2; ride3]
                      (snd (UrlCam_init 5 true fresh_host))))) ->
    In (k, v) (_urls (fst (UrlCam_init 5 true fresh_host))) \/
    (In v (accepted (net_except (url ride2))
             (requests_sent (snd (UrlCam_init 5 true fresh_host)))
             [ride1; ride2; ride3]) /\
     k = image_key v).
Proof.
  assert (Hd : NoDup (keys (_urls (fst (UrlCam_init 5 true fresh_host)))))
    by constructor.
  assert (Hbad : rejected (net_except (url ride2))
                   (requests_sent (snd (UrlCam_init 5 true fresh_host)))
                   [ride1; ride2; ride3] = [ride2])
    by (vm_compute; reflexivity).
  exact (conj Hd
           (conj Hbad
              (proj1 (proj2
                 (update_skips_invalid_urls (net_except (url ride2))
                    (fst (UrlCam_init 5 true fresh_host)) [ride1; ride2; ride3]
                    (snd (UrlCam_init 5 true fresh_host)) Hd))))).
Defined.

(** The batch of the witness above: the two valid URLs are stored, the
    failing one is not. *)
Example one_failing_url :
  values (_urls (fst (img_update_handler (net_except (url ride2))
                        (fst (UrlCam_init 5 true fresh_host))
                        [ride1; ride2; ride3]
                        (snd (UrlCam_init 5 true fresh_host)))))
  = [ride1; ride3].
Proof. vm_compute. reflexivity. Qed.

(** ** Persistence and side effects *)

(** What an update stores is what it dumps, and a camera started again on
    that dump holds the same images, with the index back at 0. *)
Theorem reload_restores_images (net : Network) (N : Z) (enabled : bool)
  (self : UrlCam) (img_urls : list ImgUrl) (h : Host) :
  url_dump (snd (img_update_handler net self img_urls h))
  = Some (_urls (fst (img_update_handler net self img_urls h))) /\
  _urls (fst (UrlCam_init N enabled (snd (img_update_handler net self img_urls h))))
  = _urls (fst (img_update_handler net self img_urls h)) /\
  _url_index
    (fst (UrlCam_init N enabled (snd (img_update_handler net self img_urls h))))
  = 0.
Proof.
  rewrite img_update_handler_spec. cbn [fst snd url_dump].
  unfold UrlCam_init. cbn [url_dump fst _urls _url_index set_urls]. auto.
Qed.

(** An update sends one validation request per image of the batch, logs the
    URLs that fail, in order, and writes no state. *)
Theorem update_side_effects (net : Network) (self : UrlCam)
  (img_urls : list ImgUrl) (h : Host) :
  requests_sent (snd (img_update_handler net self img_urls h))
  = (requests_sent h + List.length img_urls)%nat /\
  errors_logged (snd (img_update_handler net self img_urls h))
  = rev (map url (rejected net (requests_sent h) img_urls)) ++ errors_logged h /\
  ha_state_writes (snd (img_update_handler net self img_urls h))
  = ha_state_writes h.
Proof. rewrite img_update_handler_spec. cbn [snd]. auto. Qed.

(** The range of the index rests on the dump never holding more than
    [_max_images] images.  Started on a dump of four images with a maximum of
    two, three timer ticks and an empty update leave the index at 3 over two
    images, and [state] raises. *)
Example oversized_dump_escapes :
  let s := fold_left (step net_ok 2)
             [TimerTick 1; TimerTick 1; TimerTick 1; ImgUpdate []]
             (UrlCam_init 2 true oversized_host) in
  _url_index (fst s) = 3 /\ len (_urls (fst s)) = 2 /\
  state (fst s) = Raise IndexError.
Proof. vm_compute. auto. Qed.

(** * Further properties of the camera *)

(** ** The three readers *)

(** [state], [extra_state_attributes] and [camera_image] read the same
    image: the URL [state] gives is the one the attributes carry and the one
    [camera_image] asks for, and when [state] raises, the other two raise the
    same error, [camera_image] before sending any request. *)
Theorem readers_agree (net : Network) (self : UrlCam) (h : Host) :
  (forall u, state self = Ok u ->
     extra_state_attributes self = Ok [("img_url"%string, u)] /\
     (status_code (net (requests_sent h) u) = 200 ->
      fst (camera_image net self h) = Ok (content (net (requests_sent h) u)))) /\
  (forall e, state self = Raise e ->
     extra_state_attributes self = Raise e /\
     camera_image net self h = (Raise e, h)).
Proof.
  unfold state, extra_state_attributes, camera_image, _return_default_img,
    requests_get.
  destruct (len (_urls self) =? _url_index self).
  - split.
    + intros u [= <-]. split; reflexivity.
    + intros e [=].
  - destruct (current_url self) as [u'|e']; split.
    + intros u [= <-]. split; [reflexivity|]. intros ->. reflexivity.
    + intros e [=].
    + intros u [=].
    + intros e [= <-]. split; reflexivity.
Qed.

Lemma readers_agree_witness :
  state (fst (run net_ok 2 true sample_history)) = Ok (url ride3) /\
  status_code
    (net_ok (requests_sent (snd (run net_ok 2 true sample_history))) (url ride3))
  = 200 /\
  extra_state_attributes (fst (run net_ok 2 true sample_history))
  = Ok [("img_url"%string, url ride3)] /\
  fst (camera_image net_ok (fst (run net_ok 2 true sample_history))
         (snd (run net_ok 2 true sample_history)))
  = Ok (content
          (net_ok (requests_sent (snd (run net_ok 2 true sample_history)))
             (url ride3))).
Proof.
  assert (Hs : state (fst (run net_ok 2 true sample_history)) = Ok (url ride3))
    by (vm_compute; reflexivity).
  assert (Hok : status_code
                  (net_ok (requests_sent (snd (run net_ok 2 true sample_history)))
                     (url ride3)) = 200)
    by (vm_compute; reflexivity).
  exact (conj Hs
           (conj Hok
              (conj
                 (proj1 (proj1 (readers_agree net_ok
                                  (fst (run net_ok 2 true sample_history))
                                  (snd (run net_ok 2 true sample_history)))
                           _ Hs))
                 (proj2 (proj1 (readers_agree net_ok
                                  (fst (run net_ok 2 true sample_history))
                                  (snd (run net_ok 2 true sample_history)))
                           _ Hs) Hok)))).
Defined.

(** ** An index outside the stored images *)

Section OutOfRange.

Implicit Types (self : UrlCam).

Lemma index_raises {A : Type} (l : list A) (i : Z) :
  index l i = Raise IndexError <-> i < - len l \/ len l <= i.
Proof.
  unfold index.
  destruct (Z.ltb_spec i 0) as [Hneg|Hpos].
  - destruct (Z.ltb_spec (i + len l) 0) as [Hlow|Hin]; cbn [orb].
    + split; [intros _; lia | reflexivity].
    + destruct (Z.leb_spec (len l) (i + len l)); [lia|].
      destruct (nth_error l (Z.to_nat (i + len l))) as [x|] eqn:Hx.
      * split; [discriminate | lia].
      * apply nth_error_None in Hx. unfold len in *. lia.
  - destruct (Z.ltb_spec i 0); [lia|]. cbn [orb].
    destruct (Z.leb_spec (len l) i) as [Hout|Hin].
    + split; [intros _; lia | reflexivity].
    + destruct (nth_error l (Z.to_nat i)) as [x|] eqn:Hx.
      * split; [discriminate | lia].
      * apply nth_error_None in Hx. unfold len in *. lia.
Qed.

Lemma index_Ok_In {A : Type} (l : list A) (i : Z) (x : A) :
  index l i = Ok x -> In x l.
Proof.
  unfold index.
  destruct ((_ <? 0) || (len l <=? _)); [discriminate|].
  destruct (nth_error l _) as [y|] eqn:Hy; [|discriminate].
  intros [= <-]. now apply nth_error_In in Hy.
Qed.

Lemma index_not_KeyError {A : Type} (l : list A) (i : Z) :
  index l i <> Raise KeyError.
Proof.
  unfold index.
  destruct ((_ <? 0) || (len l <=? _)); [discriminate|].
  destruct (nth_error l _); discriminate.
Qed.

Lemma getitem_present {V : Type} (d : dict V) (k : string) :
  In k (keys d) -> exists v, getitem d k = Ok v.
Proof.
  intros Hin. destruct (getitem_cases d k) as [Hk|Hv]; [|exact Hv].
  apply getitem_absent in Hk. contradiction.
Qed.

(** The key read at the index is a key of the dict, so the lookup that
    follows cannot fail: [current_url] raises nothing but [IndexError]. *)
Lemma current_url_raises self e :
  current_url self = Raise e ->
  e = IndexError /\
  index (keys (_urls self)) (_url_index self) = Raise IndexError.
Proof.
  unfold current_url.
  destruct (index (keys (_urls self)) (_url_index self)) as [k|e'] eqn:Hk.
  - destruct (getitem_present (_urls self) k (index_Ok_In _ _ _ Hk)) as [v ->].
    discriminate.
  - intros [= <-]. destruct e'; [now split|].
    now apply index_not_KeyError in Hk.
Qed.

Lemma len_keys {V : Type} (d : dict V) : len (keys d) = len d.
Proof. unfold len, keys. now rewrite length_map. Qed.

Lemma current_url_outside self :
  _url_index self < - len (_urls self) \/ len (_urls self) < _url_index self ->
  current_url self = Raise IndexError.
Proof.
  intros Hi. unfold current_url.
  assert (H : index (keys (_urls self)) (_url_index self) = Raise IndexError).
  { apply index_raises. rewrite len_keys. lia. }
  now rewrite H.
Qed.


End OutOfRange.

(** [state] raises exactly when the index is beyond the number of stored
    images (or below its negative), and then it is [IndexError]: the lookup by
    the key just read never fails. *)
Theorem state_raises_iff_out_of_range (self : UrlCam) :
  (state self = Raise IndexError <->
   _url_index self < - len (_urls self) \/ len (_urls self) < _url_index self) /\
  state self <> Raise KeyError.
Proof.
  unfold state.
  destruct (Z.eqb_spec (len (_urls self)) (_url_index self)) as [He|Hne].
  - split; [|discriminate]. split; [discriminate|]. unfold len in *. lia.
  - split.
    + split.
      * intros Hr. destruct (current_url_raises self _ Hr) as [_ Hi].
        apply index_raises in Hi. rewrite len_keys in Hi. lia.
      * intros Hi. unfold current_url.
        assert (H : index (keys (_urls self)) (_url_index self)
                    = Raise IndexError).
        { apply index_raises. rewrite len_keys. lia. }
        now rewrite H.
    + intros Hr. now destruct (current_url_raises self _ Hr).
Qed.



(** ** The timer *)

Section Timer.

Variable net : Network.
Variable N : Z.

Implicit Types (s : UrlCam * Host).

Lemma step_tick s :
  step net N s (TimerTick 1) = rotate_img (fst s) (snd s).
Proof. reflexivity. Qed.

Lemma ticks_succ (k : nat) s :
  fold_left (step net N) (ticks (S k)) s
  = step net N (fold_left (step net N) (ticks k) s) (TimerTick 1).
Proof.
  unfold ticks. change (repeat (TimerTick 1) (S k))
    with (TimerTick 1 :: repeat (TimerTick 1) k).
  rewrite repeat_cons, fold_left_app. reflexivity.
Qed.

Lemma ticks_spec (k : nat) s :
  0 <= _url_index (fst s) < len (_urls (fst s)) ->
  _url_index (fst (fold_left (step net N) (ticks k) s))
  = (_url_index (fst s) + Z.of_nat k) mod len (_urls (fst s)) /\
  _urls (fst (fold_left (step net N) (ticks k) s)) = _urls (fst s) /\
  ha_state_writes (snd (fold_left (step net N) (ticks k) s))
  = (ha_state_writes (snd s) + k)%nat.
Proof.
  intros Hi. induction k as [|k (IHi & IHu & IHw)].
  - cbn [ticks repeat fold_left]. rewrite Z.add_0_r, Z.mod_small by exact Hi.
    auto.
  - rewrite ticks_succ, step_tick. unfold rotate_img. rewrite IHu.
    destruct (Z.eqb_spec (len (_urls (fst s))) 0) as [H0|H0]; [lia|].
    cbn [fst snd set_url_index _url_index _urls async_write_ha_state
         ha_state_writes].
    rewrite IHi, IHw, Zplus_mod_idemp_l. repeat split.
    + f_equal. lia.
    + exact IHu.
    + lia.
Qed.

End Timer.

(** With the index in range, [k] firings of the timer move it to
    [(index + k) mod size], leave the images alone and write the state [k]
    times.  So as many firings as there are images bring the index back, and
    every image is reached within that many firings. *)
Theorem ticks_cycle_through_images (net : Network) (N : Z) (s : UrlCam * Host) :
  0 <= _url_index (fst s) < len (_urls (fst s)) ->
  (forall k : nat,
     _url_index (fst (fold_left (step net N) (ticks k) s))
     = (_url_index (fst s) + Z.of_nat k) mod len (_urls (fst s)) /\
     _urls (fst (fold_left (step net N) (ticks k) s)) = _urls (fst s) /\
     ha_state_writes (snd (fold_left (step net N) (ticks k) s))
     = (ha_state_writes (snd s) + k)%nat) /\
  _url_index (fst (fold_left (step net N) (ticks (List.length (_urls (fst s)))) s))
  = _url_index (fst s) /\
  (forall j, 0 <= j < len (_urls (fst s)) ->
     exists k : nat,
       (k < List.length (_urls (fst s)))%nat /\
       _url_index (fst (fold_left (step net N) (ticks k) s)) = j).
Proof.
  intros Hi. split; [|split].
  - intros k. now apply ticks_spec.
  - destruct (ticks_spec net N (List.length (_urls (fst s))) s Hi) as (-> & _).
    fold (len (_urls (fst s))).
    rewrite <- (Z.mul_1_l (len (_urls (fst s)))) at 1.
    rewrite Z.mod_add by lia. now apply Z.mod_small.
  - intros j Hj.
    exists (Z.to_nat ((j - _url_index (fst s)) mod len (_urls (fst s)))).
    pose proof (Z.mod_pos_bound (j - _url_index (fst s)) (len (_urls (fst s))))
      as Hb.
    split; [unfold len in *; lia|].
    destruct (ticks_spec net N
                (Z.to_nat ((j - _url_index (fst s)) mod len (_urls (fst s))))
                s Hi) as (-> & _).
    rewrite Z2Nat.id by lia.
    rewrite Zplus_mod_idemp_r.
    replace (_url_index (fst s) + (j - _url_index (fst s))) with j by lia.
    now apply Z.mod_small.
Qed.

Lemma ticks_cycle_through_images_witness :
  0 <= _url_index (fst full_camera) < len (_urls (fst full_camera)) /\
  _url_index
    (fst (fold_left (step net_ok 2)
            (ticks (List.length (_urls (fst full_camera)))) full_camera))
  = _url_index (fst full_camera).
Proof.
  assert (Hi : 0 <= _url_index (fst full_camera) < len (_urls (fst full_camera)))
    by (vm_compute; split; [discriminate | reflexivity]).
  exact (conj Hi
           (proj1 (proj2 (ticks_cycle_through_images net_ok 2 full_camera Hi)))).
Defined.

(** The timer rotates only while the integration has exactly one config
    entry: firings seen with none or with several leave the camera and the
    host as they were, however many there are. *)
Theorem timer_needs_single_entry (net : Network) (N : Z) (s : UrlCam * Host)
  (entries : list nat) :
  Forall (fun n => n <> 1%nat) entries ->
  fold_left (step net N) (map TimerTick entries) s = s.
Proof.
  intros Hall. revert s. induction Hall as [|n entries Hn _ IH]; intros s.
  - reflexivity.
  - cbn [map fold_left step]. unfold image_update_listener.
    destruct (Nat.eqb_spec n 1); [contradiction|].
    rewrite <- surjective_pairing. apply IH.
Qed.

Lemma timer_needs_single_entry_witness :
  Forall (fun n => n <> 1%nat) [0%nat; 2%nat; 5%nat] /\
  fold_left (step net_ok 2) (map TimerTick [0%nat; 2%nat; 5%nat]) full_camera
  = full_camera.
Proof.
  assert (H : Forall (fun n => n <> 1%nat) [0%nat; 2%nat; 5%nat])
    by (repeat constructor; discriminate).
  exact (conj H (timer_needs_single_entry net_ok 2 full_camera _ H)).
Defined.

(** One rotation over a store that is not empty puts the index within the
    stored images wherever it was, and [state] then gives the URL stored at
    that place. *)
Theorem rotate_img_restores_range (self : UrlCam) (h : Host) :
  NoDup (keys (_urls self)) ->
  len (_urls self) <> 0 ->
  0 <= _url_index (fst (rotate_img self h)) < len (_urls self) /\
  exists k img,
    nth_error (_urls self) (Z.to_nat (_url_index (fst (rotate_img self h))))
    = Some (k, img) /\
    state (fst (rotate_img self h)) = Ok (url img).
Proof.
  intros Hd Hne. unfold rotate_img.
  destruct (Z.eqb_spec (len (_urls self)) 0); [contradiction|].
  cbn [fst set_url_index _url_index].
  assert (Hpos : 0 < len (_urls self)) by (unfold len in *; lia).
  pose proof (Z.mod_pos_bound (_url_index self + 1) (len (_urls self)) Hpos)
    as Hb.
  split; [exact Hb|].
  set (self' := set_url_index self ((_url_index self + 1) mod len (_urls self))).
  destruct (current_url_in_range self' Hd Hb) as (k & img & Hnth & Hu).
  exists k, img. split; [exact Hnth|].
  rewrite state_current_url; [exact Hu|].
  subst self'. cbn [set_url_index _urls _url_index]. lia.
Qed.

Lemma rotate_img_restores_range_witness :
  NoDup (keys (_urls (set_url_index (fst full_camera) 7))) /\
  len (_urls (set_url_index (fst full_camera) 7)) <> 0 /\
  0 <= _url_index (fst (rotate_img (set_url_index (fst full_camera) 7)
                          (snd full_camera)))
    < len (_urls (set_url_index (fst full_camera) 7)).
Proof.
  assert (Hd : NoDup (keys (_urls (set_url_index (fst full_camera) 7))))
    by exact (inv_keys _ _ (invariant_run net_ok 2 true [ImgUpdate [ride2; ride3]])).
  assert (Hne : len (_urls (set_url_index (fst full_camera) 7)) <> 0)
    by (vm_compute; discriminate).
  exact (conj Hd
           (conj Hne
              (proj1 (rotate_img_restores_range
                        (set_url_index (fst full_camera) 7) (snd full_camera)
                        Hd Hne)))).
Defined.

(** ** What the store and the dump always look like *)

Lemma hexdigest_length (s : string) : String.length (MD5.hexdigest s) = 32%nat.
Proof.
  unfold MD5.hexdigest, MD5.digest.
  destruct (fold_left MD5.compress _ MD5.init) as [[[a b] c] d].
  cbn [MD5.le_bytes map seq app MD5.hex String.length]. reflexivity.
Qed.

Section Keyed.

Variable net : Network.
Variable N : Z.

Implicit Types (s : UrlCam * Host).

Lemma keyed_update s img_urls :
  NoDup (keys (_urls (fst s))) ->
  keyed_by_url (_urls (fst s)) ->
  keyed_by_url (_urls (fst (img_update_handler net (fst s) img_urls (snd s)))).
Proof.
  intros Hd Hk k img Hin. rewrite img_update_handler_spec in Hin.
  cbn [fst set_urls _urls] in Hin.
  apply In_sort_and_truncate in Hin; [|now apply NoDup_keys_store].
  destruct (In_store _ _ _ _ Hin) as [Hold|[_ Hnew]];
    [now apply Hk | exact Hnew].
Qed.

Lemma keyed_step a s :
  invariant N s -> keyed_by_url (_urls (fst s)) ->
  keyed_by_url (_urls (fst (step net N s a))).
Proof.
  intros Hs Hk. destruct a; cbn [step].
  - unfold UrlCam_init. rewrite (inv_dump _ _ Hs). exact Hk.
  - unfold image_update_listener, rotate_img.
    destruct (Nat.eqb config_entries 1); [|exact Hk].
    destruct (len (_urls (fst s)) =? 0); exact Hk.
  - apply keyed_update; [exact (inv_keys _ _ Hs) | exact Hk].
  - exact Hk.
Qed.

Lemma keyed_history history s :
  invariant N s -> keyed_by_url (_urls (fst s)) ->
  keyed_by_url (_urls (fst (fold_left (step net N) history s))).
Proof.
  revert s. induction history as [|a history IH]; intros s Hs Hk; [exact Hk|].
  cbn [fold_left]. apply IH; [now apply invariant_step | now apply keyed_step].
Qed.

Lemma keyed_run enabled history :
  keyed_by_url (_urls (fst (run net N enabled history))).
Proof.
  apply keyed_history; [apply invariant_first_start|]. intros k img [].
Qed.

End Keyed.

(** In every state a history reaches, each image is stored under the MD5 hex
    digest of its own URL, a key of 32 characters, and no URL is stored
    twice. *)
Theorem stored_under_url_digest (net : Network) (N : Z) (enabled : bool)
  (history : list Action) :
  keyed_by_url (_urls (fst (run net N enabled history))) /\
  Forall (fun k => String.length k = 32%nat)
         (keys (_urls (fst (run net N enabled history)))) /\
  NoDup (map url (values (_urls (fst (run net N enabled history))))).
Proof.
  pose proof (keyed_run net N enabled history) as Hk.
  pose proof (inv_keys _ _ (invariant_run net N enabled history)) as Hd.
  split; [exact Hk|]. split.
  - apply Forall_forall. intros k Hin. unfold keys in Hin.
    apply in_map_iff in Hin. destruct Hin as ([k' img] & <- & Hin).
    cbn [fst]. rewrite (Hk _ _ Hin). apply hexdigest_length.
  - assert (Hkeys : keys (_urls (fst (run net N enabled history)))
                    = map MD5.hexdigest
                        (map url (values (_urls (fst (run net N enabled history)))))).
    { unfold keys, values. rewrite !map_map. apply map_ext_in.
      intros [k img] Hin. cbn [fst snd]. now apply Hk. }
    rewrite Hkeys in Hd. now apply NoDup_map_inv in Hd.
Qed.


(** ** Updates that bring nothing *)



(** ** The newest image *)

Section Newest.

Implicit Types (d : dict ImgUrl) (img : ImgUrl).

(** Sorting puts last the one entry that is more recent than all others. *)
Lemma sorted_ends_with_newest d k img :
  NoDup (keys d) ->
  In (k, img) d ->
  (forall k' v, In (k', v) d -> k' <> k -> date v < date img) ->
  exists front, sorted date_of_item d = front ++ [(k, img)].
Proof.
  intros Hd Hin Hnew.
  pose proof (sorted_perm date_of_item d) as Hp.
  assert (Hins : In (k, img) (sorted date_of_item d))
    by now apply (Permutation_in _ (Permutation_sym Hp)).
  assert (Hne : sorted date_of_item d <> []) by (intros E; now rewrite E in Hins).
  destruct (exists_last Hne) as (front & [kz vz] & Hs).
  exists front. rewrite Hs. do 2 f_equal.
  assert (Hz : In (kz, vz) d).
  { apply (Permutation_in _ Hp). rewrite Hs. apply in_or_app. right. now left. }
  destruct (string_dec kz k) as [->|Hk].
  - f_equal. pose proof (In_getitem _ _ _ Hd Hz) as H1.
    pose proof (In_getitem _ _ _ Hd Hin) as H2. congruence.
  - exfalso. specialize (Hnew _ _ Hz Hk).
    rewrite Hs in Hins. apply in_app_or in Hins. destruct Hins as [Hf|[E|[]]].
    + pose proof (sorted_sorted date_of_item d) as Hsorted. rewrite Hs in Hsorted.
      pose proof (StronglySorted_app_le date_of_item front [(kz, vz)]
                    (k, img) (kz, vz) Hsorted Hf (or_introl eq_refl)) as Hle.
      unfold date_of_item in Hle. cbn [snd] in Hle. lia.
    + congruence.
Qed.

(** Keeping the last [n >= 1] elements keeps the last one. *)
Lemma slice_last_ends_with {A : Type} (n : Z) (front : list A) (x : A) :
  0 < n -> exists front', slice_from (- n) (front ++ [x]) = front' ++ [x].
Proof.
  intros Hn.
  destruct (slice_from_split (- n) (front ++ [x])) as [dropped Hsplit].
  pose proof (len_slice_last n (front ++ [x]) Hn) as Hlen.
  assert (Hne : slice_from (- n) (front ++ [x]) <> []).
  { intros E. rewrite E in Hlen. unfold len in Hlen.
    rewrite length_app in Hlen. cbn [List.length] in Hlen. lia. }
  destruct (exists_last Hne) as (front' & z & Hs).
  exists front'. rewrite Hs. f_equal. f_equal.
  rewrite Hs, app_assoc in Hsplit. now apply app_inj_tail in Hsplit.
Qed.

End Newest.

(** An accepted image more recent than every other image, stored or
    accepted, is stored and comes last in the store, whatever had to be
    dropped, for a positive [_max_images]. *)
Theorem newest_image_is_stored_last (net : Network) (self : UrlCam)
  (img_urls : list ImgUrl) (h : Host) (pre : list ImgUrl) (img : ImgUrl)
  (post : list ImgUrl) :
  NoDup (keys (_urls self)) ->
  0 < _max_images self ->
  accepted net (requests_sent h) img_urls = pre ++ img :: post ->
  (forall x, In x post -> image_key x <> image_key img) ->
  (forall x, In x (pre ++ post) -> image_key x <> image_key img ->
             date x < date img) ->
  (forall k v, In (k, v) (_urls self) -> k <> image_key img ->
               date v < date img) ->
  exists front,
    _urls (fst (img_update_handler net self img_urls h))
    = front ++ [(image_key img, img)].
Proof.
  intros Hd HN Hacc Hpost Hbatch Hold.
  rewrite img_update_handler_spec. cbn [fst set_urls _urls]. rewrite Hacc.
  pose proof (NoDup_keys_store (pre ++ img :: post) _ Hd) as Hm.
  rewrite sort_and_truncate_distinct by exact Hm.
  destruct (sorted_ends_with_newest
              (store (_urls self) (pre ++ img :: post)) (image_key img) img Hm)
    as [front Hs].
  - apply getitem_In. now apply getitem_store_last.
  - intros k v Hin Hk. destruct (In_store _ _ _ _ Hin) as [Hbefore|[Hnew ->]].
    + now apply (Hold k).
    + apply Hbatch; [|exact Hk].
      apply in_app_or in Hnew. apply in_or_app.
      destruct Hnew as [Hp|[E|Hp]]; [now left | now subst v | now right].
  - rewrite Hs. now apply slice_last_ends_with.
Qed.

Lemma newest_image_is_stored_last_witness :
  NoDup (keys (_urls (fst full_camera))) /\
  0 < _max_images (fst full_camera) /\
  exists front,
    _urls (fst (img_update_handler net_ok (fst full_camera)
                  [photo "https://photos.example/ride9.jpg" 9]
                  (snd full_camera)))
    = front ++ [(image_key (photo "https://photos.example/ride9.jpg" 9),
                 photo "https://photos.example/ride9.jpg" 9)].
Proof.
  assert (Hd : NoDup (keys (_urls (fst full_camera))))
    by exact (inv_keys _ _ (invariant_run net_ok 2 true [ImgUpdate [ride2; ride3]])).
  assert (HN : 0 < _max_images (fst full_camera)) by (vm_compute; reflexivity).
  assert (Hacc : accepted net_ok (requests_sent (snd full_camera))
                   [photo "https://photos.example/ride9.jpg" 9]
                 = [] ++ photo "https://photos.example/ride9.jpg" 9 :: [])
    by (vm_compute; reflexivity).
  assert (Hpost : forall x : ImgUrl, In x [] ->
            image_key x <> image_key (photo "https://photos.example/ride9.jpg" 9))
    by (intros x []).
  assert (Hbatch : forall x : ImgUrl, In x ([] ++ []) ->
            image_key x <> image_key (photo "https://photos.example/ride9.jpg" 9) ->
            date x < date (photo "https://photos.example/ride9.jpg" 9))
    by (intros x []).
  assert (Hold : forall k v, In (k, v) (_urls (fst full_camera)) ->
            k <> image_key (photo "https://photos.example/ride9.jpg" 9) ->
            date v < date (photo "https://photos.example/ride9.jpg" 9)).
  { intros k v Hin _. vm_compute in Hin.
    destruct Hin as [E|[E|[]]]; injection E as _ <-; reflexivity. }
  exact (conj Hd
           (conj HN
              (newest_image_is_stored_last net_ok (fst full_camera) _
                 (snd full_camera) [] _ [] Hd HN Hacc Hpost Hbatch Hold))).
Defined.

(** ** What an update and a fetch leave alone *)

(** An update leaves alone what it is not given: under a key that no accepted
    image of the batch has, the store afterwards holds what it held before or,
    if the truncation dropped it, nothing; and with nothing to drop it holds
    exactly what it held. *)
Theorem update_keeps_other_entries (net : Network) (self : UrlCam)
  (img_urls : list ImgUrl) (h : Host) (k : string) :
  NoDup (keys (_urls self)) ->
  (forall x, In x (accepted net (requests_sent h) img_urls) -> image_key x <> k) ->
  (forall v,
     getitem (_urls (fst (img_update_handler net self img_urls h))) k = Ok v ->
     getitem (_urls self) k = Ok v) /\
  (_max_images self = 0 \/
   len (store (_urls self) (accepted net (requests_sent h) img_urls))
   <= _max_images self ->
   getitem (_urls (fst (img_update_handler net self img_urls h))) k
   = getitem (_urls self) k).
Proof.
  intros Hd Hk. rewrite img_update_handler_spec. cbn [fst set_urls _urls].
  set (good := accepted net (requests_sent h) img_urls) in *.
  pose proof (NoDup_keys_store good _ Hd) as Hm.
  pose proof (getitem_store_skip good (_urls self) k Hk) as Hskip.
  split.
  - intros v Hv. apply getitem_In in Hv.
    apply In_sort_and_truncate in Hv; [|exact Hm].
    apply (In_getitem _ _ _ Hm) in Hv. congruence.
  - intros Hroom.
    assert (Hs : sort_and_truncate self (store (_urls self) good)
                 = sorted date_of_item (store (_urls self) good)).
    { destruct Hroom;
        [now apply sort_and_truncate_unbounded | now apply sort_and_truncate_room]. }
    rewrite Hs, <- Hskip.
    pose proof (sorted_perm date_of_item (store (_urls self) good)) as Hp.
    assert (Hds : NoDup (keys (sorted date_of_item (store (_urls self) good))))
      by (apply (NoDup_keys_perm (store (_urls self) good));
          [now apply Permutation_sym | exact Hm]).
    destruct (getitem_cases (store (_urls self) good) k) as [Hnone|[v Hv]].
    + rewrite Hnone. apply getitem_absent. apply getitem_absent in Hnone.
      intros Hin. apply Hnone.
      apply (Permutation_in (l := keys (sorted date_of_item (store (_urls self) good))));
        [|exact Hin].
      unfold keys. now apply Permutation_map.
    + rewrite Hv. apply In_getitem; [exact Hds|].
      apply (Permutation_in _ (Permutation_sym Hp)). now apply getitem_In.
Qed.

Lemma update_keeps_other_entries_witness :
  NoDup (keys (_urls (fst full_camera))) /\
  (forall x, In x (accepted net_ok (requests_sent (snd full_camera)) [ride1]) ->
             image_key x <> image_key ride3) /\
  forall v,
    getitem (_urls (fst (img_update_handler net_ok (fst full_camera) [ride1]
                           (snd full_camera)))) (image_key ride3) = Ok v ->
    getitem (_urls (fst full_camera)) (image_key ride3) = Ok v.
Proof.
  assert (Hd : NoDup (keys (_urls (fst full_camera))))
    by exact (inv_keys _ _ (invariant_run net_ok 2 true [ImgUpdate [ride2; ride3]])).
  assert (Hk : forall x,
            In x (accepted net_ok (requests_sent (snd full_camera)) [ride1]) ->
            image_key x <> image_key ride3).
  { intros x Hin. vm_compute in Hin. destruct Hin as [<-|[]].
    vm_compute. discriminate. }
  exact (conj Hd
           (conj Hk
              (proj1 (update_keeps_other_entries net_ok (fst full_camera) [ride1]
                        (snd full_camera) (image_key ride3) Hd Hk)))).
Defined.


(** ** The same event delivered again *)

Section StrictOrder.

Context {A : Type} (key : A -> Z).

Lemma sorted_strict (l : list A) :
  StronglySorted (key_le key) l -> NoDup (map key l) ->
  StronglySorted (key_lt key) l.
Proof.
  induction 1 as [|x l Hl IH Hx]; intros Hnd; [constructor|].
  cbn [map] in Hnd. inversion Hnd as [|? ? Hout Hnd']; subst.
  constructor; [now apply IH|].
  rewrite Forall_forall in *. intros y Hy. specialize (Hx y Hy).
  unfold key_le, key_lt in *.
  assert (key x <> key y) by (intros E; apply Hout; rewrite E; now apply in_map).
  lia.
Qed.

(** Two lists in strictly ascending order with the same elements are the
    same list. *)
Lemma strict_sorted_unique (l1 l2 : list A) :
  StronglySorted (key_lt key) l1 -> StronglySorted (key_lt key) l2 ->
  Permutation l1 l2 -> l1 = l2.
Proof.
  intros H1. revert l2. induction H1 as [|a t1 Ht1 IH Ha]; intros l2 H2 Hp.
  - now apply Permutation_nil in Hp.
  - destruct H2 as [|b t2 Ht2 Hb].
    + apply Permutation_sym, Permutation_nil in Hp. discriminate.
    + assert (Hab : a = b).
      { assert (Hina : In a (b :: t2))
          by (apply (Permutation_in _ Hp); now left).
        assert (Hinb : In b (a :: t1))
          by (apply (Permutation_in _ (Permutation_sym Hp)); now left).
        rewrite Forall_forall in Ha, Hb. unfold key_lt in *.
        destruct Hina as [E|Hina]; [now symmetry|].
        destruct Hinb as [E|Hinb]; [exact E|].
        specialize (Ha _ Hinb). specialize (Hb _ Hina). lia. }
      subst b. f_equal. apply IH; [exact Ht2|].
      now apply Permutation_cons_inv in Hp.
Qed.

Lemma StronglySorted_filter (R : A -> A -> Prop) (f : A -> bool) (l : list A) :
  StronglySorted R l -> StronglySorted R (filter f l).
Proof.
  induction 1 as [|x l Hl IH Hx]; cbn [filter]; [constructor|].
  destruct (f x); [|exact IH]. constructor; [exact IH|].
  rewrite Forall_forall in *. intros y Hy. apply Hx.
  now apply filter_In in Hy.
Qed.

Lemma filter_all (f : A -> bool) (l : list A) :
  (forall x, In x l -> f x = true) -> filter f l = l.
Proof.
  induction l as [|x l IH]; intros H; cbn [filter]; [reflexivity|].
  rewrite (H x (or_introl eq_refl)). f_equal. apply IH.
  intros y Hy. apply H. now right.
Qed.

(** Keeping the last [n] of a list that ends with [n] or fewer elements
    [tail], when the list would otherwise be all there is. *)
Lemma slice_last_tail (n : Z) (front tail : list A) :
  0 < n -> len tail <= n -> (front <> [] -> len tail = n) ->
  slice_from (- n) (front ++ tail) = tail.
Proof.
  intros Hn Hle Hfull. destruct front as [|x front].
  - cbn [app]. now apply slice_from_all.
  - assert (Ht : len tail = n) by (apply Hfull; discriminate).
    unfold slice_from, len in *.
    destruct (Z.ltb_spec (- n) 0); [|lia].
    rewrite length_app in *.
    replace (Z.to_nat _) with (List.length (x :: front)) by lia.
    rewrite skipn_app, skipn_all, Nat.sub_diag. reflexivity.
Qed.

End StrictOrder.

Section Redelivery.

Implicit Types (d : dict ImgUrl) (imgs : list ImgUrl) (k : string).

Lemma has_key_In d (k : string) (v : ImgUrl) :
  has_key d (k, v) = true <-> In k (keys d).
Proof.
  unfold has_key. cbn [fst]. rewrite existsb_exists. split.
  - intros (k' & Hin & Heq). apply String.eqb_eq in Heq. now subst.
  - intros Hin. exists k. split; [exact Hin | apply String.eqb_refl].
Qed.

(** Under a key of the batch, what is stored does not depend on what was
    stored before. *)
Lemma getitem_store_batch imgs d d' k :
  (exists x, In x imgs /\ image_key x = k) ->
  getitem (store d imgs) k = getitem (store d' imgs) k.
Proof.
  induction imgs as [|x imgs IH] using rev_ind; intros (y & Hy & Hk).
  - contradiction.
  - rewrite !store_app. unfold store at 1 3. cbn [fold_left].
    destruct (string_dec (image_key x) k) as [E|E].
    + rewrite E, !getitem_setitem_same. reflexivity.
    + rewrite !getitem_setitem_other by congruence.
      apply IH. exists y. split; [|exact Hk].
      apply in_app_or in Hy. destruct Hy as [Hy|[<-|[]]]; [exact Hy|contradiction].
Qed.

Lemma key_in_batch_dec imgs k :
  (exists x, In x imgs /\ image_key x = k) \/
  (forall x, In x imgs -> image_key x <> k).
Proof.
  induction imgs as [|x imgs [(y & Hy & Hk)|IH]].
  - right. intros x [].
  - left. exists y. split; [now right | exact Hk].
  - destruct (string_dec (image_key x) k) as [E|E].
    + left. exists x. split; [now left | exact E].
    + right. intros y [<-|Hy]; [exact E | now apply IH].
Qed.

(** Storing the batch again over a part [d1] of what storing it gave, a part
    with distinct keys, gives entries that were all there, with all of [d1]
    among them. *)
Lemma store_again imgs d d1 :
  NoDup (keys d) -> NoDup (keys d1) ->
  (forall kv, In kv d1 -> In kv (store d imgs)) ->
  (forall kv, In kv (store d1 imgs) -> In kv (store d imgs)) /\
  (forall kv, In kv d1 -> In kv (store d1 imgs)).
Proof.
  intros Hd Hd1 Hsub.
  pose proof (NoDup_keys_store imgs d Hd) as Hm.
  pose proof (NoDup_keys_store imgs d1 Hd1) as Hm1.
  assert (Hsame : forall k v, In (k, v) d1 ->
            getitem (store d1 imgs) k = Ok v).
  { intros k v Hin.
    destruct (key_in_batch_dec imgs k) as [Hbatch|Hnot].
    - rewrite (getitem_store_batch imgs d1 d k Hbatch).
      apply In_getitem; [exact Hm | now apply Hsub].
    - rewrite getitem_store_skip by exact Hnot. now apply In_getitem. }
  split.
  - intros [k v] Hin. apply getitem_In.
    destruct (key_in_batch_dec imgs k) as [Hbatch|Hnot].
    + rewrite (getitem_store_batch imgs d d1 k Hbatch). now apply In_getitem.
    + apply (In_getitem _ _ _ Hm1) in Hin.
      rewrite getitem_store_skip in Hin by exact Hnot.
      apply In_getitem; [exact Hm|]. apply Hsub. now apply getitem_In.
  - intros [k v] Hin. apply getitem_In. now apply Hsame.
Qed.

Lemma NoDup_items d : NoDup (keys d) -> NoDup d.
Proof. unfold keys. apply NoDup_map_inv. Qed.

End Redelivery.

Lemma NoDup_map_inj {A B : Type} (f : A -> B) (m : list A) (x y : A) :
  NoDup (map f m) -> In x m -> In y m -> f x = f y -> x = y.
Proof.
  induction m as [|a m IH]; intros Hnd Hx Hy E; [contradiction|].
  cbn [map] in Hnd. inversion Hnd as [|? ? Hout Hnd']; subst.
  destruct Hx as [->|Hx], Hy as [->|Hy].
  - reflexivity.
  - exfalso. apply Hout. rewrite E. now apply in_map.
  - exfalso. apply Hout. rewrite <- E. now apply in_map.
  - now apply IH.
Qed.

Lemma NoDup_map_incl {A B : Type} (f : A -> B) (l m : list A) :
  NoDup l -> incl l m -> NoDup (map f m) -> NoDup (map f l).
Proof.
  induction 1 as [|x l Hout Hl IH]; intros Hincl Hm; [constructor|].
  cbn [map]. constructor.
  - intros Hin. apply in_map_iff in Hin. destruct Hin as (y & E & Hy).
    apply Hout.
    rewrite (NoDup_map_inj f m x y Hm); [exact Hy | | | now symmetry].
    + apply Hincl. now left.
    + apply Hincl. now right.
  - apply IH; [|exact Hm]. intros y Hy. apply Hincl. now right.
Qed.

(** Delivering an event a second time changes nothing, when the same URLs
    validate as the first time and the dates at hand are all different: the
    stored images and their order are those the first delivery left. *)
Theorem update_twice_is_update_once (net : Network) (self : UrlCam)
  (img_urls : list ImgUrl) (h : Host) :
  NoDup (keys (_urls self)) ->
  0 < _max_images self ->
  accepted net (requests_sent (snd (img_update_handler net self img_urls h)))
    img_urls
  = accepted net (requests_sent h) img_urls ->
  NoDup (dates (store (_urls self) (accepted net (requests_sent h) img_urls))) ->
  _urls (fst (img_update_handler net
                (fst (img_update_handler net self img_urls h)) img_urls
                (snd (img_update_handler net self img_urls h))))
  = _urls (fst (img_update_handler net self img_urls h)).
Proof.
  intros Hd HN Hsame Hdates.
  rewrite (img_update_handler_spec net (fst (img_update_handler net self img_urls h))).
  cbn [fst set_urls _urls]. rewrite Hsame. clear Hsame.
  rewrite img_update_handler_spec. cbn [fst snd set_urls _urls].
  set (good := accepted net (requests_sent h) img_urls) in *.
  set (M := store (_urls self) good) in *.
  assert (HM : NoDup (keys M)) by now apply NoDup_keys_store.
  set (self1 := set_urls self (sort_and_truncate self M)).
  assert (Hd1eq : sort_and_truncate self M
                  = slice_from (- _max_images self) (sorted date_of_item M))
    by now apply sort_and_truncate_distinct.
  set (d1 := sort_and_truncate self M) in *.
  assert (Hd1 : NoDup (keys d1)) by now apply NoDup_keys_sort_and_truncate.
  destruct (slice_from_split (- _max_images self) (sorted date_of_item M))
    as [E HS].
  rewrite <- Hd1eq in HS.
  assert (Hsub : forall kv, In kv d1 -> In kv M)
    by (intros kv; now apply In_sort_and_truncate).
  destruct (store_again good (_urls self) d1 Hd Hd1 Hsub) as [Hback Hkeep].
  fold M in Hback.
  set (M2 := store d1 good) in *.
  assert (HM2 : NoDup (keys M2)) by now apply NoDup_keys_store.
  pose proof (sorted_perm date_of_item M) as HpM.
  pose proof (sorted_perm date_of_item M2) as HpM2.
  assert (HdM : NoDup (map date_of_item M)).
  { unfold dates, values in Hdates. now rewrite map_map in Hdates. }
  assert (HSstrict : StronglySorted (key_lt date_of_item) (sorted date_of_item M)).
  { apply sorted_strict; [apply sorted_sorted|].
    apply (Permutation_NoDup (l := map date_of_item M)); [|exact HdM].
    now apply Permutation_map, Permutation_sym. }
  assert (HS2strict : StronglySorted (key_lt date_of_item)
                        (sorted date_of_item M2)).
  { apply sorted_strict; [apply sorted_sorted|].
    apply (NoDup_map_incl date_of_item _ M); [| |exact HdM].
    - apply (Permutation_NoDup (l := M2));
        [now apply Permutation_sym | now apply NoDup_items].
    - intros kv Hin. apply Hback. now apply (Permutation_in _ HpM2). }
  assert (Hfilter : filter (has_key M2) (sorted date_of_item M)
                    = filter (has_key M2) E ++ d1).
  { rewrite HS, filter_app. f_equal. apply filter_all.
    intros [k v] Hin. apply has_key_In.
    change k with (fst (k, v)). apply in_map. now apply Hkeep. }
  assert (HS2 : sorted date_of_item M2
                = filter (has_key M2) (sorted date_of_item M)).
  { apply (strict_sorted_unique date_of_item);
      [exact HS2strict | now apply StronglySorted_filter |].
    apply (Permutation_trans HpM2).
    apply NoDup_Permutation.
    - now apply NoDup_items.
    - apply NoDup_filter.
      apply (Permutation_NoDup (l := M));
        [now apply Permutation_sym | now apply NoDup_items].
    - intros [k v]. rewrite filter_In, has_key_In. split.
      + intros Hin. split.
        * apply (Permutation_in _ (Permutation_sym HpM)). now apply Hback.
        * change k with (fst (k, v)). now apply in_map.
      + intros [Hin Hk]. apply (Permutation_in _ HpM) in Hin.
        destruct (getitem_present M2 k Hk) as [v' Hv'].
        apply getitem_In in Hv'.
        pose proof (In_getitem _ _ _ HM (Hback _ Hv')) as H1.
        pose proof (In_getitem _ _ _ HM Hin) as H2.
        assert (v' = v) by congruence. now subst v'. }
  rewrite sort_and_truncate_distinct by exact HM2.
  subst self1. cbn [set_urls _max_images]. rewrite HS2, Hfilter.
  assert (Hlen : len d1 = Z.min (_max_images self) (len M))
    by now apply len_sort_and_truncate.
  apply slice_last_tail; [exact HN | lia |].
  intros Hne.
  assert (HE : E <> []) by (intros ->; now apply Hne).
  assert (HlenS : len M = len E + len d1).
  { unfold len. rewrite <- (length_sorted date_of_item M), HS, length_app. lia. }
  assert (0 < len E) by (destruct E; [contradiction | unfold len; cbn; lia]).
  lia.
Qed.

Lemma update_twice_is_update_once_witness :
  NoDup (keys (_urls (fst full_camera))) /\
  0 < _max_images (fst full_camera) /\
  NoDup (dates (store (_urls (fst full_camera))
                  (accepted net_ok (requests_sent (snd full_camera))
                     [ride1; ride3]))) /\
  _urls (fst (img_update_handler net_ok
                (fst (img_update_handler net_ok (fst full_camera) [ride1; ride3]
                        (snd full_camera)))
                [ride1; ride3]
                (snd (img_update_handler net_ok (fst full_camera) [ride1; ride3]
                        (snd full_camera)))))
  = _urls (fst (img_update_handler net_ok (fst full_camera) [ride1; ride3]
                  (snd full_camera))).
Proof.
  assert (Hd : NoDup (keys (_urls (fst full_camera))))
    by exact (inv_keys _ _ (invariant_run net_ok 2 true [ImgUpdate [ride2; ride3]])).
  assert (HN : 0 < _max_images (fst full_camera)) by (vm_compute; reflexivity).
  assert (Hsame : accepted net_ok
                    (requests_sent
                       (snd (img_update_handler net_ok (fst full_camera)
                               [ride1; ride3] (snd full_camera))))
                    [ride1; ride3]
                  = accepted net_ok (requests_sent (snd full_camera))
                      [ride1; ride3])
    by (vm_compute; reflexivity).
  assert (Hdates : NoDup (dates (store (_urls (fst full_camera))
                                   (accepted net_ok
                                      (requests_sent (snd full_camera))
                                      [ride1; ride3])))).
  { vm_compute. repeat constructor; simpl; intuition discriminate. }
  exact (conj Hd
           (conj HN
              (conj Hdates
                 (update_twice_is_update_once net_ok (fst full_camera)
                    [ride1; ride3] (snd full_camera) Hd HN Hsame Hdates)))).
Defined.

(** With two images of the same date and room for one, each delivery of the
    same event swaps the one that is kept. *)
Example same_date_redelivery_swaps :
  values (_urls (fst (run net_ok 1 true [ImgUpdate [dawn; dusk]]))) = [dusk] /\
  values (_urls (fst (run net_ok 1 true
                        [ImgUpdate [dawn; dusk]; ImgUpdate [dawn; dusk]])))
  = [dawn].
Proof. vm_compute. auto. Qed.

(** ** A full store *)

Lemma StronglySorted_snoc {A : Type} (R : A -> A -> Prop) (l : list A) (x : A) :
  StronglySorted R l -> Forall (fun y => R y x) l ->
  StronglySorted R (l ++ [x]).
Proof.
  induction 1 as [|a l Hl IH Ha]; intros Hx; cbn [app].
  - repeat constructor.
  - inversion Hx as [|? ? Hax Hlx]; subst. constructor; [now apply IH|].
    apply Forall_app. split; [exact Ha | now constructor].
Qed.

(** When the store is full and in date order, one accepted image with a new
    URL and a date no older than any stored one pushes the oldest image out:
    what is stored afterwards is the old store without its first entry,
    followed by the new image. *)
Theorem full_store_drops_oldest (net : Network) (self : UrlCam) (img : ImgUrl)
  (h : Host) :
  NoDup (keys (_urls self)) ->
  StronglySorted (key_le date_of_item) (_urls self) ->
  0 < _max_images self ->
  len (_urls self) = _max_images self ->
  status_code (net (requests_sent h) (url img)) = 200 ->
  ~ In (image_key img) (keys (_urls self)) ->
  (forall k v, In (k, v) (_urls self) -> date v <= date img) ->
  _urls (fst (img_update_handler net self [img] h))
  = tl (_urls self) ++ [(image_key img, img)].
Proof.
  intros Hd Hs HN Hfull Hok Hnew Hdate.
  rewrite img_update_handler_spec. cbn [fst set_urls _urls].
  rewrite (accepted_one net h img Hok). unfold store. cbn [fold_left].
  rewrite setitem_absent by exact Hnew.
  assert (Hm : NoDup (keys (_urls self ++ [(image_key img, img)]))).
  { rewrite <- (setitem_absent (_urls self) (image_key img) img Hnew).
    now apply NoDup_keys_setitem. }
  rewrite sort_and_truncate_distinct by exact Hm.
  rewrite sorted_id.
  - unfold slice_from, len in *. rewrite length_app. cbn [List.length].
    destruct (Z.ltb_spec (- _max_images self) 0); [|lia].
    replace (Z.to_nat _) with 1%nat by lia.
    destruct (_urls self) as [|kv d]; [cbn in Hfull; lia | reflexivity].
  - apply StronglySorted_snoc; [exact Hs|].
    apply Forall_forall. intros [k v] Hin. unfold key_le, date_of_item.
    cbn [snd]. now apply (Hdate k).
Qed.

Lemma full_store_drops_oldest_witness :
  NoDup (keys (_urls (fst full_camera))) /\
  len (_urls (fst full_camera)) = _max_images (fst full_camera) /\
  ~ In (image_key (photo "https://photos.example/ride9.jpg" 9))
       (keys (_urls (fst full_camera))) /\
  _urls (fst (img_update_handler net_ok (fst full_camera)
                [photo "https://photos.example/ride9.jpg" 9] (snd full_camera)))
  = tl (_urls (fst full_camera))
    ++ [(image_key (photo "https://photos.example/ride9.jpg" 9),
         photo "https://photos.example/ride9.jpg" 9)].
Proof.
  assert (Hd : NoDup (keys (_urls (fst full_camera))))
    by exact (inv_keys _ _ (invariant_run net_ok 2 true [ImgUpdate [ride2; ride3]])).
  assert (Hs : StronglySorted (key_le date_of_item) (_urls (fst full_camera)))
    by exact (inv_dates _ _ (invariant_run net_ok 2 true [ImgUpdate [ride2; ride3]])).
  assert (HN : 0 < _max_images (fst full_camera)) by (vm_compute; reflexivity).
  assert (Hfull : len (_urls (fst full_camera)) = _max_images (fst full_camera))
    by (vm_compute; reflexivity).
  assert (Hok : status_code
                  (net_ok (requests_sent (snd full_camera))
                     (url (photo "https://photos.example/ride9.jpg" 9))) = 200)
    by (vm_compute; reflexivity).
  assert (Hnew : ~ In (image_key (photo "https://photos.example/ride9.jpg" 9))
                      (keys (_urls (fst full_camera)))).
  { vm_compute. intuition discriminate. }
  assert (Hdate : forall k v, In (k, v) (_urls (fst full_camera)) ->
            date v <= date (photo "https://photos.example/ride9.jpg" 9)).
  { intros k v Hin. vm_compute in Hin.
    destruct Hin as [E|[E|[]]]; injection E as _ <-; discriminate. }
  exact (conj Hd
           (conj Hfull
              (conj Hnew
                 (full_store_drops_oldest net_ok (fst full_camera) _
                    (snd full_camera) Hd Hs HN Hfull Hok Hnew Hdate)))).
Defined.

(** * When requests may fail *)

(** ** The methods of [Camera] are those of [Raising] on an answering
    network *)

Lemma answering_camera_image (net : Network) (self : UrlCam) (h : Host) :
  Raising.camera_image (Raising.answering net) self h
  = (Raising.of_result (fst (camera_image net self h)),
     snd (camera_image net self h)).
Proof.
  unfold Raising.camera_image, camera_image, Raising._return_default_img,
    _return_default_img, Raising.requests_get, requests_get, Raising.answering.
  destruct (len (_urls self) =? _url_index self); [reflexivity|].
  destruct (current_url self) as [u|e]; [|reflexivity].
  destruct (status_code (net (requests_sent h) u) =? 200); reflexivity.
Qed.

Lemma answering_is_url_valid (net : Network) (self : UrlCam) (u : string)
  (h : Host) :
  Raising.is_url_valid (Raising.answering net) self u h
  = (Raising.Returns (fst (is_url_valid net self u h)),
     snd (is_url_valid net self u h)).
Proof.
  unfold Raising.is_url_valid, is_url_valid, Raising.requests_get,
    requests_get, Raising.answering.
  destruct (status_code (net (requests_sent h) u) =? 200); reflexivity.
Qed.

Lemma answering_append_new_images (net : Network) (self : UrlCam)
  (img_urls : list ImgUrl) : forall (d : dict ImgUrl) (h : Host),
  Raising.append_new_images (Raising.answering net) self img_urls d h
  = (Raising.Returns tt, fst (append_new_images net self img_urls d h),
     snd (append_new_images net self img_urls d h)).
Proof.
  induction img_urls as [|img img_urls IH]; intros d h; [reflexivity|].
  cbn [Raising.append_new_images].
  rewrite answering_is_url_valid, append_new_images_cons.
  destruct (fst (is_url_valid net self (url img) h)); apply IH.
Qed.

Lemma answering_img_update_handler (net : Network) (self : UrlCam)
  (img_urls : list ImgUrl) (h : Host) :
  Raising.img_update_handler (Raising.answering net) self img_urls h
  = (Raising.Returns tt, fst (img_update_handler net self img_urls h),
     snd (img_update_handler net self img_urls h)).
Proof.
  unfold Raising.img_update_handler, img_update_handler.
  rewrite answering_append_new_images.
  destruct (append_new_images net self img_urls (_urls self) h); reflexivity.
Qed.

(** ** An update cut short *)

(** The loop up to a validation that is not answered: the images accepted
    before it are in the dict, and the exception leaves the loop. *)
Lemma append_new_images_cut (transport : Raising.Transport) (net : Network)
  (self : UrlCam) (img : ImgUrl) (post : list ImgUrl) (pre : list ImgUrl) :
  forall (d : dict ImgUrl) (h : Host),
  (forall n u, (requests_sent h <= n < requests_sent h + List.length pre)%nat ->
               transport n u = Some (net n u)) ->
  transport (requests_sent h + List.length pre)%nat (url img) = None ->
  Raising.append_new_images transport self (pre ++ img :: post) d h
  = (Raising.Raises Raising.RequestException,
     store d (accepted net (requests_sent h) pre),
     {| requests_sent := S (requests_sent h + List.length pre);
        url_dump := url_dump h;
        ha_state_writes := ha_state_writes h;
        errors_logged :=
          rev (map url (rejected net (requests_sent h) pre))
          ++ errors_logged h |}).
Proof.
  induction pre as [|x pre IH]; intros d h Hans Hnone.
  - cbn [app Raising.append_new_images List.length] in *.
    unfold Raising.is_url_valid, Raising.requests_get.
    rewrite Nat.add_0_r in Hnone. rewrite Hnone.
    cbn [accepted rejected store fold_left map rev app].
    now rewrite Nat.add_0_r.
  - cbn [app Raising.append_new_images List.length] in *.
    unfold Raising.is_url_valid, Raising.requests_get.
    rewrite (Hans (requests_sent h) (url x)) by lia.
    cbn [accepted rejected].
    destruct (status_code (net (requests_sent h) (url x)) =? 200).
    + rewrite IH; cbn [requests_sent url_dump ha_state_writes errors_logged].
      * rewrite store_cons. do 2 f_equal. lia.
      * intros n u Hn. apply Hans. lia.
      * rewrite <- Hnone. f_equal. lia.
    + rewrite IH;
        cbn [log_error requests_sent url_dump ha_state_writes errors_logged
             map rev].
      * rewrite <- app_assoc. cbn [app]. do 2 f_equal. lia.
      * intros n u Hn. apply Hans. lia.
      * rewrite <- Hnone. f_equal. lia.
Qed.

(** A validation request that is not answered ends the update with the
    exception of [requests.get].  The images accepted before it are stored
    already, neither sorted nor truncated; the dump is not written, the index
    is as it was, and the images after it are not looked at. *)
Theorem update_aborts_when_request_fails (transport : Raising.Transport)
  (net : Network) (self : UrlCam) (pre : list ImgUrl) (img : ImgUrl)
  (post : list ImgUrl) (h : Host) :
  (forall n u, (requests_sent h <= n < requests_sent h + List.length pre)%nat ->
               transport n u = Some (net n u)) ->
  transport (requests_sent h + List.length pre)%nat (url img) = None ->
  let out := Raising.img_update_handler transport self (pre ++ img :: post) h in
  fst (fst out) = Raising.Raises Raising.RequestException /\
  _urls (snd (fst out)) = store (_urls self) (accepted net (requests_sent h) pre) /\
  _url_index (snd (fst out)) = _url_index self /\
  url_dump (snd out) = url_dump h /\
  requests_sent (snd out) = S (requests_sent h + List.length pre) /\
  errors_logged (snd out)
  = rev (map url (rejected net (requests_sent h) pre)) ++ errors_logged h /\
  ha_state_writes (snd out) = ha_state_writes h.
Proof.
  intros Hans Hnone out. subst out. unfold Raising.img_update_handler.
  rewrite (append_new_images_cut transport net self img post pre _ h Hans Hnone).
  cbn [fst snd set_urls _urls _url_index url_dump requests_sent errors_logged
       ha_state_writes].
  repeat split.
Qed.

Lemma update_aborts_when_request_fails_witness :
  (forall n u,
     (requests_sent (snd (UrlCam_init 2 true fresh_host)) <= n
      < requests_sent (snd (UrlCam_init 2 true fresh_host))
        + List.length [ride1])%nat ->
     drops_request 1 n u = Some (net_ok n u)) /\
  drops_request 1
    (requests_sent (snd (UrlCam_init 2 true fresh_host)) + List.length [ride1])%nat
    (url ride2) = None /\
  _urls (snd (fst (Raising.img_update_handler (drops_request 1)
                     (fst (UrlCam_init 2 true fresh_host))
                     ([ride1] ++ ride2 :: [ride3])
                     (snd (UrlCam_init 2 true fresh_host)))))
  = [(image_key ride1, ride1)] /\
  url_dump (snd (Raising.img_update_handler (drops_request 1)
                   (fst (UrlCam_init 2 true fresh_host))
                   ([ride1] ++ ride2 :: [ride3])
                   (snd (UrlCam_init 2 true fresh_host))))
  = Some [].
Proof.
  assert (Hans : forall n u,
            (requests_sent (snd (UrlCam_init 2 true fresh_host)) <= n
             < requests_sent (snd (UrlCam_init 2 true fresh_host))
               + List.length [ride1])%nat ->
            drops_request 1 n u = Some (net_ok n u)).
  { intros n u Hn. cbn in Hn. assert (Hn0 : n = 0%nat) by lia.
    rewrite Hn0. reflexivity. }
  assert (Hnone : drops_request 1
                    (requests_sent (snd (UrlCam_init 2 true fresh_host))
                     + List.length [ride1])%nat
                    (url ride2) = None)
    by reflexivity.
  assert (Hstore : store (_urls (fst (UrlCam_init 2 true fresh_host)))
                     (accepted net_ok
                        (requests_sent (snd (UrlCam_init 2 true fresh_host)))
                        [ride1])
                   = [(image_key ride1, ride1)])
    by reflexivity.
  assert (Hdump : url_dump (snd (UrlCam_init 2 true fresh_host)) = Some [])
    by reflexivity.
  exact (conj Hans
           (conj Hnone
              (conj
                 (eq_trans
                    (proj1 (proj2
                       (update_aborts_when_request_fails (drops_request 1) net_ok
                          (fst (UrlCam_init 2 true fresh_host)) [ride1] ride2
                          [ride3] (snd (UrlCam_init 2 true fresh_host))
                          Hans Hnone)))
                    Hstore)
                 (eq_trans
                    (proj1 (proj2 (proj2 (proj2
                       (update_aborts_when_request_fails (drops_request 1) net_ok
                          (fst (UrlCam_init 2 true fresh_host)) [ride1] ride2
                          [ride3] (snd (UrlCam_init 2 true fresh_host))
                          Hans Hnone)))))
                    Hdump)))).
Defined.

(** ** Fetching the image bytes *)

(** C9, as amended. [camera_image] returns bytes whenever its requests are
    answered and the index is the sentinel or a subscript of the stored
    images: the body answered for the default URL when the index is the
    sentinel, the body of the current image when its URL answers 200, and on
    any other status, after logging the URL, the body answered to a second
    request, for the default URL.  It catches nothing: when a request is not
    answered, the first or the second, the exception of [requests.get] is
    raised to the caller; and an index that is no subscript of the stored
    images raises [IndexError] before any request, which is the only way it
    raises without a request having failed. *)
Theorem camera_image_falls_back (transport : Raising.Transport)
  (self : UrlCam) (h : Host) :
  (len (_urls self) = _url_index self ->
   (forall r, transport (requests_sent h) _default_url = Some r ->
      fst (Raising.camera_image transport self h) = Raising.Returns (content r)) /\
   (transport (requests_sent h) _default_url = None ->
      fst (Raising.camera_image transport self h)
      = Raising.Raises Raising.RequestException)) /\
  (- len (_urls self) <= _url_index self < len (_urls self) ->
   exists u,
     state self = Ok u /\
     (forall r, transport (requests_sent h) u = Some r -> status_code r = 200 ->
        fst (Raising.camera_image transport self h) = Raising.Returns (content r)) /\
     (forall r, transport (requests_sent h) u = Some r -> status_code r <> 200 ->
        errors_logged (snd (Raising.camera_image transport self h))
        = u :: errors_logged h /\
        (forall r', transport (S (requests_sent h)) _default_url = Some r' ->
           fst (Raising.camera_image transport self h)
           = Raising.Returns (content r')) /\
        (transport (S (requests_sent h)) _default_url = None ->
           fst (Raising.camera_image transport self h)
           = Raising.Raises Raising.RequestException)) /\
     (transport (requests_sent h) u = None ->
        fst (Raising.camera_image transport self h)
        = Raising.Raises Raising.RequestException)) /\
  (_url_index self < - len (_urls self) \/ len (_urls self) < _url_index self ->
   Raising.camera_image transport self h
   = (Raising.Raises (Raising.Lookup IndexError), h)) /\
  (forall e,
     fst (Raising.camera_image transport self h)
     = Raising.Raises (Raising.Lookup e) ->
     _url_index self < - len (_urls self) \/ len (_urls self) < _url_index self).
Proof.
  unfold Raising.camera_image, Raising._return_default_img,
    Raising.requests_get.
  destruct (Z.eqb_spec (len (_urls self)) (_url_index self)) as [He|Hne].
  - split; [|split; [|split]].
    + intros _. split.
      * intros r ->. reflexivity.
      * intros ->. reflexivity.
    + intros Hi. exfalso. lia.
    + intros Hi. exfalso. unfold len in *. lia.
    + intros e.
      destruct (transport (requests_sent h) _default_url); discriminate.
  - destruct (current_url self) as [u|e0] eqn:Hu.
    + split; [|split; [|split]].
      * intros He. contradiction.
      * intros _. exists u.
        rewrite state_current_url by exact Hne. split; [exact Hu|].
        split; [|split].
        -- intros r -> Hs. apply Z.eqb_eq in Hs. now rewrite Hs.
        -- intros r -> Hs. apply Z.eqb_neq in Hs. rewrite Hs.
           cbn [requests_sent log_error url_dump ha_state_writes errors_logged].
           split; [|split].
           ++ destruct (transport (S (requests_sent h)) _default_url);
                reflexivity.
           ++ intros r' ->. reflexivity.
           ++ intros ->. reflexivity.
        -- intros ->. reflexivity.
      * intros Hi. rewrite current_url_outside in Hu by exact Hi.
        discriminate Hu.
      * intros e.
        destruct (transport (requests_sent h) u) as [r|]; [|discriminate].
        destruct (status_code r =? 200); [discriminate|].
        cbn [requests_sent log_error].
        destruct (transport (S (requests_sent h)) _default_url); discriminate.
    + destruct (current_url_raises self _ Hu) as [-> Hi].
      apply index_raises in Hi. rewrite len_keys in Hi.
      split; [|split; [|split]].
      * intros He. contradiction.
      * intros Hr. exfalso. lia.
      * intros _. reflexivity.
      * intros e _. lia.
Qed.

Lemma camera_image_falls_back_witness :
  - len (_urls (fst (run net_ok 2 true gone_history)))
  <= _url_index (fst (run net_ok 2 true gone_history))
  < len (_urls (fst (run net_ok 2 true gone_history))) /\
  state (fst (run net_ok 2 true gone_history)) = Ok (url ride3) /\
  status_code
    (net_gone (requests_sent (snd (run net_ok 2 true gone_history))) (url ride3))
  <> 200 /\
  fst (Raising.camera_image (Raising.answering net_gone)
         (fst (run net_ok 2 true gone_history))
         (snd (run net_ok 2 true gone_history)))
  = Raising.Returns placeholder_png.
Proof.
  assert (Hi : - len (_urls (fst (run net_ok 2 true gone_history)))
               <= _url_index (fst (run net_ok 2 true gone_history))
               < len (_urls (fst (run net_ok 2 true gone_history))))
    by (vm_compute; split; [discriminate | reflexivity]).
  assert (Hstate : state (fst (run net_ok 2 true gone_history)) = Ok (url ride3))
    by (vm_compute; reflexivity).
  assert (Hbad : status_code
                   (net_gone
                      (requests_sent (snd (run net_ok 2 true gone_history)))
                      (url ride3)) <> 200)
    by (vm_compute; discriminate).
  refine (conj Hi (conj Hstate (conj Hbad _))).
  destruct (proj1 (proj2 (camera_image_falls_back (Raising.answering net_gone)
                            (fst (run net_ok 2 true gone_history))
                            (snd (run net_ok 2 true gone_history)))) Hi)
    as (u & Hu & _ & Hfall & _).
  assert (Heq : u = url ride3) by congruence.
  rewrite Heq in Hfall.
  exact (eq_trans
           (proj1 (proj2 (Hfall _ eq_refl Hbad)) _ eq_refl)
           eq_refl).
Defined.

(** C9, as stated, fails: a camera holding two images is asked for the image
    while no request is answered; [requests.get] raises and so does
    [camera_image].  The same when the URL of the current image answers 404
    and the request for the default image is the one not answered.  And with
    every request answered, a camera whose index is beyond its images (started
    on a dump of four images with a maximum of two, after three timer firings
    and an update event) raises [IndexError]. *)
Lemma camera_image_raises_when_offline :
  fst (Raising.camera_image offline (fst full_camera) (snd full_camera))
  = Raising.Raises Raising.RequestException /\
  fst (Raising.camera_image
         (fun t u => if Nat.eqb t 3 then None
                     else Some (net_except (url ride2) t u))
         (fst full_camera) (snd full_camera))
  = Raising.Raises Raising.RequestException /\
  fst (Raising.camera_image (Raising.answering net_ok)
         (fst (started net_ok 2 true oversized_host (ticks 3 ++ [ImgUpdate []])))
         (snd (started net_ok 2 true oversized_host (ticks 3 ++ [ImgUpdate []]))))
  = Raising.Raises (Raising.Lookup IndexError).
Proof. repeat split; vm_compute; reflexivity. Qed.

